(** * go-middle: remote public-key cache and bearer-token middleware

    A shallow embedding of [crypto/key.go], [utils/env.go] and
    [middleware/verify.go].  Go's standard library, Gin and the JWT
    library are outside the repository: their entry points appear as
    section variables named after the Go functions they stand for, and
    every theorem holds for each behaviour those functions may have. *)

From Stdlib Require Import ZArith Lia Bool Ascii.
From stdpp Require Import base strings list gmap.

Local Open Scope Z_scope.
Local Open Scope string_scope.

(** ** Go values shared by the three packages *)

Module Go.

(** A value of the interface type [error]; [Error] is [err.Error()]. *)
Record error := mkError { Error : string }.

(** [errors.New(text)]. *)
Definition errors_New (text : string) : error := mkError text.

(** [time.Time] and [time.Duration], both counted in nanoseconds. *)
Definition Time := Z.
Definition Duration := Z.
Definition time_Minute : Duration := 60 * 1000000000.

(** [[]byte]. *)
Definition bytes := list Byte.byte.

#[global] Instance error_eq_dec : EqDecision error.
Proof. solve_decision. Defined.

#[global] Instance byte_eq_dec : EqDecision Byte.byte := Byte.byte_eq_dec.

End Go.
Export Go.

(** ** sync.RWMutex

    The zero value is an unlocked mutex.  An operation that cannot
    proceed in the current state yields [None]: [Lock] and [RLock] would
    block, [Unlock] and [RUnlock] of a mutex not held are fatal.

    The state is who holds the mutex, not who waits for it.  Go makes
    [RLock] block also while a writer waits in [Lock]; here [RLock]
    succeeds then, so the interleaved system below reaches every state
    the program reaches, and more.  What holds of all its states holds
    of the program; what the program is sure to be able to do next is
    phrased with [More.sure_step], where a reader yields to a waiting
    writer. *)

Module RWMutex.

Record t := mk { writer : bool; readers : nat }.

Definition zero : t := mk false 0.

Definition Lock (m : t) : option t :=
  if writer m then None
  else match readers m with
       | O => Some (mk true 0)
       | S _ => None
       end.

Definition Unlock (m : t) : option t :=
  if writer m then Some (mk false (readers m)) else None.

Definition RLock (m : t) : option t :=
  if writer m then None else Some (mk false (S (readers m))).

Definition RUnlock (m : t) : option t :=
  match readers m with
  | O => None
  | S n => Some (mk (writer m) n)
  end.

#[global] Instance t_eq_dec : EqDecision t.
Proof. solve_decision. Defined.

End RWMutex.

(** ** The process environment: network, clock, variables, log *)

(** [*http.Response] as far as [refresh] looks at it: [Body] is what
    [io.ReadAll(resp.Body)] will yield, the bytes or a read error. *)
Record Response := mkResponse {
  StatusCode : Z;
  Body : error + bytes
}.

(** What the process has done to, and can observe of, the outside:
    the URLs it has called [http.Get] with so far (oldest first, one
    entry for each call, whatever the client sends on the wire for it),
    the wall clock, the environment variables, the [.env] file ([None]:
    unreadable), and the lines written through package [log]. *)
Record World := mkWorld {
  requests : list string;
  now : Time;
  environ : gmap string string;
  dotenv : option (gmap string string);
  logged : list string
}.

Definition with_requests (w : World) (rs : list string) : World :=
  mkWorld rs (now w) (environ w) (dotenv w) (logged w).

Definition with_now (w : World) (t : Time) : World :=
  mkWorld (requests w) t (environ w) (dotenv w) (logged w).

Definition with_environ (w : World) (e : gmap string string) : World :=
  mkWorld (requests w) (now w) e (dotenv w) (logged w).

Definition with_logged (w : World) (l : list string) : World :=
  mkWorld (requests w) (now w) (environ w) (dotenv w) l.

(** ** crypto/x509 and encoding/pem values *)

(** [rsa.PublicKey]. *)
Record rsa_PublicKey := mkRSA { N : Z; E : Z }.

#[global] Instance rsa_PublicKey_eq_dec : EqDecision rsa_PublicKey.
Proof. solve_decision. Defined.

(** The dynamic types [x509.ParsePKIXPublicKey] documents for its
    result of static type [any]. *)
Inductive PKIXPublicKey :=
| pub_rsa (k : rsa_PublicKey)
| pub_dsa (k : bytes)
| pub_ecdsa (k : bytes)
| pub_ed25519 (k : bytes)
| pub_ecdh (k : bytes).

#[global] Instance PKIXPublicKey_eq_dec : EqDecision PKIXPublicKey.
Proof. solve_decision. Defined.

(** [pem.Block]. *)
Record pem_Block := mkBlock {
  Type_ : string;
  Headers : gmap string string;
  Bytes : bytes
}.

(** ** crypto/key.go *)

Module Crypto.

Record RemotePublicKey := mkRemote {
  url : string;
  publicKey : option rsa_PublicKey;     (* [*rsa.PublicKey]; [None] is nil *)
  lastUpdated : Time;
  refreshEvery : Duration;
  mu : RWMutex.t
}.

Definition set_publicKey (r : RemotePublicKey) (k : option rsa_PublicKey) :=
  mkRemote (url r) k (lastUpdated r) (refreshEvery r) (mu r).

Definition set_lastUpdated (r : RemotePublicKey) (t : Time) :=
  mkRemote (url r) (publicKey r) t (refreshEvery r) (mu r).

Definition set_mu (r : RemotePublicKey) (m : RWMutex.t) :=
  mkRemote (url r) (publicKey r) (lastUpdated r) (refreshEvery r) m.

Section Library.

(** The network: the answer the [n]-th call of [http.Get] of the
    process receives when it is given this URL. *)
Variable transport : nat -> string -> error + Response.
Variable pem_Decode : bytes -> option (pem_Block * bytes).
Variable x509_ParsePKIXPublicKey : bytes -> error + PKIXPublicKey.

(** [http.Get(u)]: one call, recorded as such.  Redirects followed and
    requests sent again by net/http below the call do not show. *)
Definition http_Get (u : string) (w : World) : (error + Response) * World :=
  (transport (length (requests w)) u, with_requests w (requests w ++ [u])).

Definition io_ReadAll (resp : Response) : error + bytes := Body resp.

Definition time_Now (w : World) : Time := now w.

(** *** Single-threaded reading of the three methods

    [r.mu.Lock()] and [r.mu.Unlock()] bracket the two assignments
    of [refresh]; run alone on a free mutex they take and give it
    back, so the mutex does not show here.  The interleaved
    reading, one step per statement, follows below and is related
    to this one by [refresh_steps_agree]. *)

Definition refresh (r : RemotePublicKey) (w : World)
  : RemotePublicKey * option error * World :=
  let (resp, w) := http_Get (url r) w in
  match resp with
  | inl err => (r, Some err, w)
  | inr resp =>
    match io_ReadAll resp with
    | inl err => (r, Some err, w)
    | inr raw =>
      match pem_Decode raw with
      | None => (r, Some (errors_New "invalid PEM"), w)
      | Some (block, _) =>
        match x509_ParsePKIXPublicKey (Bytes block) with
        | inl err => (r, Some err, w)
        | inr pub =>
          match pub with
          | pub_rsa rsaPub =>
            let r := set_publicKey r (Some rsaPub) in
            let r := set_lastUpdated r (time_Now w) in
            (r, None, w)
          | _ => (r, Some (errors_New "not RSA public key"), w)
          end
        end
      end
    end
  end.

Definition Get (r : RemotePublicKey) : option rsa_PublicKey := publicKey r.

(** [autoRefresh]: the ticker fires after each of the given waits
    ([for range ticker.C]); the list is a finite prefix of the
    endless loop.  [time.NewTicker] panics on a non-positive
    interval, which is the [None]. *)
Fixpoint autoRefresh_loop (waits : list Duration) (r : RemotePublicKey) (w : World)
  : RemotePublicKey * World :=
  match waits with
  | [] => (r, w)
  | d :: waits =>
    let w := with_now w (now w + d) in
    let '(r, _, w) := refresh r w in
    autoRefresh_loop waits r w
  end.

Definition autoRefresh (waits : list Duration) (r : RemotePublicKey) (w : World)
  : option (RemotePublicKey * World) :=
  if decide (refreshEvery r <= 0) then None
  else Some (autoRefresh_loop waits r w).

(** The constructor up to [go r.autoRefresh()]; the goroutine it
    starts is [autoRefresh] above, or the refresher of the
    interleaved system below. *)
Definition NewRemotePublicKey (u : string) (every : Duration) (w : World)
  : option RemotePublicKey * option error * World :=
  let r := mkRemote u None 0 every RWMutex.zero in
  match refresh r w with
  | (_, Some err, w) => (None, Some err, w)
  | (r, None, w) => (Some r, None, w)
  end.

(** *** Interleaved reading: one step per statement *)

(** Where a call of [refresh] stands, with the locals it holds. *)
Inductive refresh_pc :=
| at_Get
| at_ReadAll (resp : Response)
| at_Decode (raw : bytes)
| at_Parse (block : pem_Block)
| at_Assert (pub : PKIXPublicKey)
| at_Lock (rsaPub : rsa_PublicKey)
| at_SetKey (rsaPub : rsa_PublicKey)
| at_SetTime
| at_Unlock
| returned (err : option error).

Definition refresh_step (pc : refresh_pc) (r : RemotePublicKey) (w : World)
  : option (refresh_pc * RemotePublicKey * World) :=
  match pc with
  | at_Get =>
    let (resp, w) := http_Get (url r) w in
    match resp with
    | inl err => Some (returned (Some err), r, w)
    | inr resp => Some (at_ReadAll resp, r, w)
    end
  | at_ReadAll resp =>
    match io_ReadAll resp with
    | inl err => Some (returned (Some err), r, w)
    | inr raw => Some (at_Decode raw, r, w)
    end
  | at_Decode raw =>
    match pem_Decode raw with
    | None => Some (returned (Some (errors_New "invalid PEM")), r, w)
    | Some (block, _) => Some (at_Parse block, r, w)
    end
  | at_Parse block =>
    match x509_ParsePKIXPublicKey (Bytes block) with
    | inl err => Some (returned (Some err), r, w)
    | inr pub => Some (at_Assert pub, r, w)
    end
  | at_Assert pub =>
    match pub with
    | pub_rsa rsaPub => Some (at_Lock rsaPub, r, w)
    | _ => Some (returned (Some (errors_New "not RSA public key")), r, w)
    end
  | at_Lock rsaPub =>
    m ← RWMutex.Lock (mu r); Some (at_SetKey rsaPub, set_mu r m, w)
  | at_SetKey rsaPub =>
    Some (at_SetTime, set_publicKey r (Some rsaPub), w)
  | at_SetTime =>
    Some (at_Unlock, set_lastUpdated r (time_Now w), w)
  | at_Unlock =>
    m ← RWMutex.Unlock (mu r); Some (returned None, set_mu r m, w)
  | returned _ => None
  end.

(** Where a call of [Get] stands; the result is evaluated before
    the deferred [RUnlock] runs. *)
Inductive get_pc :=
| at_RLock
| at_Read
| at_RUnlock (v : option rsa_PublicKey)
| got (v : option rsa_PublicKey).

Definition get_step (pc : get_pc) (r : RemotePublicKey)
  : option (get_pc * RemotePublicKey) :=
  match pc with
  | at_RLock => m ← RWMutex.RLock (mu r); Some (at_Read, set_mu r m)
  | at_Read => Some (at_RUnlock (publicKey r), r)
  | at_RUnlock v => m ← RWMutex.RUnlock (mu r); Some (got v, set_mu r m)
  | got _ => None
  end.

(** The [autoRefresh] goroutine: blocked on the ticker, or inside
    a call of [refresh]. *)
Inductive loop_pc :=
| waiting
| refreshing (pc : refresh_pc).

(** One cache, its refresher, and the calls of [Get] in flight
    (each [Verify] makes one, from the key callback). *)
Record System := mkSystem {
  cache : RemotePublicKey;
  world : World;
  refresher : loop_pc;
  callers : list get_pc
}.

Inductive Action :=
| Elapse (d : Duration)     (* time passes *)
| Tick                      (* the ticker delivers to the waiting loop *)
| Refresher                 (* the refresher runs one statement *)
| Arrive                    (* a new call of Get starts *)
| Caller (i : nat).         (* the i-th call of Get runs one statement *)

Definition step (a : Action) (s : System) : option System :=
  match a with
  | Elapse d =>
    Some (mkSystem (cache s) (with_now (world s) (now (world s) + d))
                   (refresher s) (callers s))
  | Tick =>
    match refresher s with
    | waiting => Some (mkSystem (cache s) (world s) (refreshing at_Get) (callers s))
    | refreshing _ => None
    end
  | Refresher =>
    match refresher s with
    | waiting => None
    | refreshing (returned _) =>
      Some (mkSystem (cache s) (world s) waiting (callers s))
    | refreshing pc =>
      '(pc, r, w) ← refresh_step pc (cache s) (world s);
      Some (mkSystem r w (refreshing pc) (callers s))
    end
  | Arrive =>
    Some (mkSystem (cache s) (world s) (refresher s) (callers s ++ [at_RLock]))
  | Caller i =>
    pc ← callers s !! i;
    '(pc, r) ← get_step pc (cache s);
    Some (mkSystem r (world s) (refresher s) (<[i := pc]> (callers s)))
  end.

Fixpoint run (sched : list Action) (s : System) : option System :=
  match sched with
  | [] => Some s
  | a :: sched => s ← step a s; run sched s
  end.

(** A call of [refresh], respectively [Get], run alone to its return,
    in at most [fuel] steps. *)
Fixpoint refresh_steps (fuel : nat) (pc : refresh_pc) (r : RemotePublicKey) (w : World)
  : option (RemotePublicKey * option error * World) :=
  match pc with
  | returned err => Some (r, err, w)
  | _ =>
    match fuel with
    | O => None
    | S fuel =>
      '(pc, r, w) ← refresh_step pc r w; refresh_steps fuel pc r w
    end
  end.

Fixpoint get_steps (fuel : nat) (pc : get_pc) (r : RemotePublicKey)
  : option (option rsa_PublicKey * RemotePublicKey) :=
  match pc with
  | got v => Some (v, r)
  | _ =>
    match fuel with
    | O => None
    | S fuel => '(pc, r) ← get_step pc r; get_steps fuel pc r
    end
  end.

(** The system a successful constructor leaves behind. *)
Definition boot (r : RemotePublicKey) (w : World) : System :=
  mkSystem r w waiting [].

End Library.

End Crypto.


(** ** utils/env.go *)

Module Utils.

(** [log.Println] and [log.Printf]: one more line on the log. *)
Definition log_Println (line : string) (w : World) : World :=
  with_logged w (logged w ++ [line]).

(** [godotenv.Load()] puts the variables of [.env] that the process
    does not have yet into its environment, and fails when the file
    cannot be read. *)
Definition godotenv_Load (w : World) : option error * World :=
  match dotenv w with
  | None => (Some (errors_New "open .env: no such file or directory"), w)
  | Some file => (None, with_environ w (environ w ∪ file))
  end.

Definition LoadEnv (w : World) : World :=
  let (err, w) := godotenv_Load w in
  match err with
  | Some _ => log_Println "[go-middle] .env not found, using system environment" w
  | None => w
  end.

(** [os.Getenv]: the empty string for a variable that is not set. *)
Definition os_Getenv (key : string) (w : World) : string :=
  default "" (environ w !! key).

Definition GetEnv (key : string) (w : World) : string * World :=
  let value := os_Getenv key w in
  if decide (value = "")
  then (value, log_Println ("[go-middle] WARNING: env " ++ key ++ " not set") w)
  else (value, w).

End Utils.

(** ** package strings *)

(** [strings.Split(s, sep)] for a separator that is not empty: the
    substrings between the occurrences of [sep], found left to right
    without overlap.  [skip] counts the bytes of an occurrence still to
    be passed over, [cur] is the piece being collected. *)
Fixpoint split_from (sep s : string) (skip : nat) (cur : string) : list string :=
  match s with
  | EmptyString => [cur]
  | String a s' =>
    match skip with
    | S skip => split_from sep s' skip cur
    | O =>
      if String.prefix sep s
      then cur :: split_from sep s' (String.length sep - 1) EmptyString
      else split_from sep s' 0 (cur ++ String a EmptyString)
    end
  end.

(** With the empty separator Go splits after each UTF-8 sequence; the
    middleware never asks for that, and the bytes are returned one by
    one here. *)
Fixpoint explode (s : string) : list string :=
  match s with
  | EmptyString => []
  | String a s' => String a EmptyString :: explode s'
  end.

Definition strings_Split (s sep : string) : list string :=
  match sep with
  | EmptyString => explode s
  | _ => split_from sep s 0 EmptyString
  end.

(** No byte of [s] is a space. *)
Fixpoint spaceless (s : string) : bool :=
  match s with
  | EmptyString => true
  | String a s' => negb (bool_decide (a = " "%char)) && spaceless s'
  end.

(** The pieces after the first, each behind the space that cut it off. *)
Fixpoint join_spaces (ps : list string) : string :=
  match ps with
  | [] => EmptyString
  | p :: ps => String " " (p ++ join_spaces ps)
  end.

(** ** A call that returns or panics *)

Inductive Result (A : Type) :=
| Returned (a : A)
| Panicked (msg : string).
Arguments Returned {A} a.
Arguments Panicked {A} msg.

Definition Result_bind {A B} (x : Result A) (k : A -> Result B) : Result B :=
  match x with
  | Returned a => k a
  | Panicked msg => Panicked msg
  end.

Notation "'let!' x := e 'in' k" := (Result_bind e (fun x => k))
  (at level 10, x name, e at level 100, k at level 200).

(** [l[i]]: indexing a slice out of range panics. *)
Definition index {A} (l : list A) (i : nat) : Result A :=
  match l !! i with
  | Some a => Returned a
  | None => Panicked "runtime error: index out of range"
  end.

(** ** github.com/golang-jwt/jwt/v5 and github.com/gin-gonic/gin values *)

(** A decoded JSON value; numbers, arrays and objects keep their text. *)
Inductive json :=
| json_null
| json_bool (b : bool)
| json_string (s : string)
| json_text (raw : string).

#[global] Instance json_eq_dec : EqDecision json.
Proof. solve_decision. Defined.

(** [jwt.MapClaims] is [map[string]any]. *)
Abbreviation MapClaims := (gmap string json).

(** The dynamic types a [jwt.Claims] may have. *)
Inductive Claims :=
| claims_Map (m : MapClaims)
| claims_Registered (m : MapClaims)
| claims_custom (typ : string) (m : MapClaims).

(** [jwt.Token]; [Method] is the signing method, by its [Alg()]. *)
Record Token := mkToken {
  Raw : string;
  Method : string;
  Header : gmap string json;
  Claims_ : Claims;
  Signature : bytes;
  Valid : bool
}.

Definition set_Valid (t : Token) (b : bool) : Token :=
  mkToken (Raw t) (Method t) (Header t) (Claims_ t) (Signature t) b.

(** What a [jwt.Keyfunc] hands back as the key ([any] in Go): in this
    program always a [*rsa.PublicKey], [None] being the nil pointer. *)
Definition VerificationKey := option rsa_PublicKey.

Definition Keyfunc := Token -> VerificationKey * option error.

Inductive ParserOption :=
| WithValidMethods (methods : list string)
| WithLeeway (leeway : Duration)
| WithoutClaimsValidation.

(** The type of [jwt.Parse], given the time of the call. *)
Definition Parser :=
  Time -> string -> Keyfunc -> list ParserOption -> option Token * option error.

(** A value stored in [gin.Context.Keys]. *)
Inductive any :=
| any_MapClaims (m : MapClaims)
| any_string (s : string).

(** [gin.H] with string values, as the middleware builds it. *)
Abbreviation H := (gmap string string).

(** [gin.Context] as the middleware uses it: the request headers, the
    per-request keys, whether the chain was aborted, and the status and
    JSON body written so far. *)
Record Context := mkContext {
  Request_Header : gmap string (list string);
  Keys : gmap string any;
  aborted : bool;
  written : option (Z * H)
}.

Definition http_StatusUnauthorized : Z := 401.

(** [c.GetHeader(key)]: the first value of the header, or the empty
    string. *)
Definition GetHeader (c : Context) (key : string) : string :=
  match Request_Header c !! key with
  | Some (v :: _) => v
  | _ => ""
  end.

Definition AbortWithStatusJSON (code : Z) (obj : H) (c : Context) : Context :=
  mkContext (Request_Header c) (Keys c) true (Some (code, obj)).

(** [c.Set(key, value)]. *)
Definition Set_ (key : string) (value : any) (c : Context) : Context :=
  mkContext (Request_Header c) (<[key := value]> (Keys c)) (aborted c) (written c).

(** ** middleware/verify.go *)

Module Middleware.

Import Crypto.

Record Options := mkOptions {
  PublicKeyURL : string;
  RefreshEvery : Duration
}.

Section Library.

Variable transport : nat -> string -> error + Response.
Variable pem_Decode : bytes -> option (pem_Block * bytes).
Variable x509_ParsePKIXPublicKey : bytes -> error + PKIXPublicKey.
Variable jwt_Parse : Parser.

(** The body of [VerifyToken] up to its [return]: the panic message,
    or the cache the returned handler closes over. *)
Definition VerifyToken (w : World) : Result (option RemotePublicKey) * World :=
  let w := Utils.LoadEnv w in
  let (publicKeyURL, w) := Utils.GetEnv "PUBLIC_KEY_URL" w in
  if decide (publicKeyURL = "")
  then (Panicked "[go-middle] PUBLIC_KEY_URL is required in .env", w)
  else
    let '(remoteKey, err, w) :=
      NewRemotePublicKey transport pem_Decode x509_ParsePKIXPublicKey
                         publicKeyURL (5 * time_Minute) w in
    match err with
    | Some err =>
      (Panicked ("[go-middle] failed loading remote public key: " ++ Error err), w)
    | None => (Returned remoteKey, w)
    end.

(** The key callback handed to [jwt.Parse]. *)
Definition keyFunc (remoteKey : RemotePublicKey) : Keyfunc :=
  fun t => (Get remoteKey, None).

(** The handler [VerifyToken] returns, on the state [remoteKey] of the
    cache at the time of the request; [next] is the rest of the handler
    chain, which [c.Next()] runs. *)
Definition handler (remoteKey : RemotePublicKey) (now : Time)
    (next : Context -> Context) (c : Context) : Result Context :=
  let auth := GetHeader c "Authorization" in
  if decide (auth = "")
  then Returned (AbortWithStatusJSON http_StatusUnauthorized
                   {[ "error" := "missing authorization header" ]} c)
  else
    let parts := strings_Split auth " " in
    let! malformed :=
      if decide (length parts ≠ 2%nat) then Returned true
      else let! scheme := index parts 0 in
           Returned (bool_decide (scheme ≠ "Bearer")) in
    if malformed
    then Returned (AbortWithStatusJSON http_StatusUnauthorized
                     {[ "error" := "invalid authorization format" ]} c)
    else
      let! tokenStr := index parts 1 in
      let (token, err) := jwt_Parse now tokenStr (keyFunc remoteKey) [] in
      let! invalid :=
        match err with
        | Some _ => Returned true
        | None =>
          match token with
          | Some token => Returned (negb (Valid token))
          | None => Panicked "runtime error: invalid memory address or nil pointer dereference"
          end
        end in
      if invalid
      then Returned (AbortWithStatusJSON http_StatusUnauthorized
                       {[ "error" := "invalid or expired token" ]} c)
      else
        match token with
        | Some token =>
          match Claims_ token with
          | claims_Map claims => Returned (next (Set_ "claims" (any_MapClaims claims) c))
          | _ => Panicked "interface conversion: jwt.Claims is not jwt.MapClaims"
          end
        | None => Panicked "runtime error: invalid memory address or nil pointer dereference"
        end.

End Library.

End Middleware.

(** ** A reading of jwt.Parse by its stages

    The middleware is verified against an arbitrary [jwt_Parse].  To
    speak of the three ways a token fails (it does not parse, its
    signature does not verify, its claims are not valid now) the
    library is also given stage by stage, in the order jwt/v5 runs
    them: decode the segments into a token with [MapClaims], check the
    method against [WithValidMethods], ask the key callback, verify the
    signature, validate the claims, set [Valid]. *)

Module Jwt.

Section Stages.

(** Decoding the three segments: the error, with the token when the
    library had already allocated it, or the method, header, claims
    and signature read. *)
Variable ParseUnverified :
  string -> (option Token * error) + (string * gmap string json * MapClaims * bytes).
(** [token.Method.Verify(text, token.Signature, key)]. *)
Variable Verify : Token -> VerificationKey -> option error.
(** The validator on the claims at the given time. *)
Variable Validate : MapClaims -> Time -> option error.

Definition method_allowed (options : list ParserOption) (alg : string) : bool :=
  forallb (fun o => match o with
                    | WithValidMethods methods => bool_decide (alg ∈ methods)
                    | _ => true
                    end) options.

Definition skips_validation (options : list ParserOption) : bool :=
  existsb (fun o => match o with WithoutClaimsValidation => true | _ => false end)
          options.

Definition Parse : Parser := fun now tokenString keyFunc options =>
  match ParseUnverified tokenString with
  | inl (token, err) => (token, Some err)
  | inr (alg, header, claims, signature) =>
    let token := mkToken tokenString alg header (claims_Map claims) signature false in
    if negb (method_allowed options alg)
    then (Some token, Some (errors_New "token signature is invalid: signing method is invalid"))
    else
      let (key, err) := keyFunc token in
      match err with
      | Some err =>
        (Some token,
         Some (errors_New ("token is unverifiable: error while executing keyfunc: " ++ Error err)))
      | None =>
        match Verify token key with
        | Some err =>
          (Some token, Some (errors_New ("token signature is invalid: " ++ Error err)))
        | None =>
          match (if skips_validation options then None else Validate claims now) with
          | Some err =>
            (Some token, Some (errors_New ("token has invalid claims: " ++ Error err)))
          | None => (Some (set_Valid token true), None)
          end
        end
      end
  end.

End Stages.

End Jwt.

(** ** A small concrete environment

    One key server, two RSA keys, an elliptic-curve key and a page that
    is no PEM; tokens named by what is wrong with them.  Used to run the
    definitions and to instantiate the theorems. *)

Module Demo.

Definition key_url : string := "http://localhost:3000/keys/public.pem".

Definition key1 : rsa_PublicKey := mkRSA 3233 17.
Definition key2 : rsa_PublicKey := mkRSA 3127 3.

Definition pem_of (tag : Byte.byte) : error + Response :=
  inr (mkResponse 200 (inr [tag])).

(** The server answers, request after request: key 1, a refused
    connection, key 2, a page of HTML, an EC key, a body cut short,
    a PEM block that holds no key, and key 2 from then on. *)
Definition transport (n : nat) (u : string) : error + Response :=
  if decide (u = key_url) then
    match n with
    | 0%nat => pem_of Byte.x01
    | 1%nat => inl (errors_New "dial tcp 127.0.0.1:3000: connect: connection refused")
    | 2%nat => pem_of Byte.x02
    | 3%nat => inr (mkResponse 404 (inr [Byte.x00]))
    | 4%nat => pem_of Byte.x03
    | 5%nat => inr (mkResponse 200 (inl (errors_New "unexpected EOF")))
    | 6%nat => pem_of Byte.x04
    | _ => pem_of Byte.x02
    end
  else inl (errors_New "no such host").

Definition pem_Decode (raw : bytes) : option (pem_Block * bytes) :=
  match raw with
  | [tag] => if decide (tag = Byte.x00) then None
             else Some (mkBlock "PUBLIC KEY" ∅ [tag], [])
  | _ => None
  end.

Definition x509_ParsePKIXPublicKey (der : bytes) : error + PKIXPublicKey :=
  match der with
  | [Byte.x01] => inr (pub_rsa key1)
  | [Byte.x02] => inr (pub_rsa key2)
  | [Byte.x03] => inr (pub_ecdsa [Byte.x03])
  | _ => inl (errors_New "asn1: structure error")
  end.

Definition world0 : World :=
  mkWorld [] 1000 {[ "PUBLIC_KEY_URL" := key_url ]} None [].

(** The cache right after construction in [world0], and that world
    after the first request. *)
Definition cache1 : Crypto.RemotePublicKey :=
  Crypto.mkRemote key_url (Some key1) 1000 (5 * time_Minute) RWMutex.zero.

Definition world1 : World :=
  mkWorld [key_url] 1000 {[ "PUBLIC_KEY_URL" := key_url ]} None [].

Definition alice : MapClaims :=
  {[ "sub" := json_string "alice"; "exp" := json_text "2000" ]}.

Definition stale : MapClaims :=
  {[ "sub" := json_string "alice"; "exp" := json_text "0" ]}.

(** Tokens: signed by key 1, by key 2, expired, with a custom method,
    and one that has only two segments. *)
Definition ParseUnverified (tokenString : string)
  : (option Token * error) + (string * gmap string json * MapClaims * bytes) :=
  if decide (tokenString = "signed1") then inr ("RS256", ∅, alice, [Byte.x01])
  else if decide (tokenString = "signed2") then inr ("RS256", ∅, alice, [Byte.x02])
  else if decide (tokenString = "expired1") then inr ("RS256", ∅, stale, [Byte.x01])
  else if decide (tokenString = "pss1") then inr ("PS512", ∅, alice, [Byte.x01])
  else if decide (tokenString = "a.b")
       then inl (None, errors_New "token is malformed: token contains an invalid number of segments")
  else inl (Some (mkToken tokenString "" ∅ (claims_Map ∅) [] false),
            errors_New "token is malformed: could not base64 decode header").

Definition Verify (t : Token) (key : VerificationKey) : option error :=
  match key, Signature t with
  | Some k, [tag] =>
    if decide (x509_ParsePKIXPublicKey [tag] = inr (pub_rsa k)) then None
    else Some (errors_New "crypto/rsa: verification error")
  | _, _ => Some (errors_New "key is of invalid type")
  end.

Definition Validate (claims : MapClaims) (now : Time) : option error :=
  if decide (claims !! "exp" = Some (json_text "0"))
  then Some (errors_New "token is expired")
  else None.

Definition jwt_Parse : Parser := Jwt.Parse ParseUnverified Verify Validate.

Definition request (auth : string) : Context :=
  mkContext {[ "Authorization" := [auth] ]} ∅ false None.

Definition handler
  : Crypto.RemotePublicKey -> Time -> (Context -> Context) -> Context -> Result Context :=
  Middleware.handler jwt_Parse.

(** A refresh that fails, then one that succeeds while a call of [Get]
    is under way: the call takes the read lock just before the
    refresher asks for the write lock, reads, and lets go; the
    refresher then stores key 2, and a second call reads after it. *)
Definition race_schedule : list Crypto.Action :=
  [ Crypto.Tick; Crypto.Refresher; Crypto.Refresher;
    Crypto.Tick; Crypto.Elapse 7; Crypto.Refresher; Crypto.Refresher;
    Crypto.Refresher; Crypto.Refresher; Crypto.Refresher;
    Crypto.Arrive; Crypto.Caller 0;
    Crypto.Caller 0; Crypto.Caller 0;
    Crypto.Refresher; Crypto.Refresher; Crypto.Elapse 2; Crypto.Refresher;
    Crypto.Refresher; Crypto.Refresher;
    Crypto.Arrive; Crypto.Caller 1; Crypto.Caller 1; Crypto.Caller 1 ].

(** The state that schedule ends in. *)
Definition raced : Crypto.System :=
  Crypto.mkSystem
    (Crypto.mkRemote key_url (Some key2) 1009 (5 * time_Minute) RWMutex.zero)
    (mkWorld [key_url; key_url; key_url] 1009 {[ "PUBLIC_KEY_URL" := key_url ]} None [])
    Crypto.waiting [Crypto.got (Some key1); Crypto.got (Some key2)].

End Demo.

(** ** The vocabulary of the specification

    The definitions of this module follow the specification's words,
    not the code; the theorems compare the two. *)

Module Spec.

(** The error taxonomy of key fetching. *)
Inductive FetchFailure :=
| FetchError
| FormatError
| KeyTypeError.

(** The classified failures of verification, with the messages the
    boundary layer sends. *)
Inductive Failure :=
| MissingToken
| MalformedHeader
| InvalidToken.

Definition message (f : Failure) : string :=
  match f with
  | MissingToken => "missing authorization header"
  | MalformedHeader => "invalid authorization format"
  | InvalidToken => "invalid or expired token"
  end.

(** Every verification failure is an HTTP 401 with the JSON body
    [{"error": "<message>"}], and the request goes no further. *)
Definition rejection (f : Failure) (c : Context) : Context :=
  mkContext (Request_Header c) (Keys c) true
            (Some (401, {[ "error" := message f ]})).

(** The world once a GET of [u] has been made. *)
Definition asked (u : string) (w : World) : World :=
  with_requests w (requests w ++ [u]).

Section Library.

Variable transport : nat -> string -> error + Response.
Variable pem_Decode : bytes -> option (pem_Block * bytes).
Variable x509_ParsePKIXPublicKey : bytes -> error + PKIXPublicKey.

(** The answer the next GET of [u] receives in world [w]. *)
Definition answer (u : string) (w : World) : error + Response :=
  transport (length (requests w)) u.

(** The fetch algorithm on the answer of the key source: a failed call
    or an unreadable body is a [FetchError]; no PEM block, or a block
    that does not parse as a public key, a [FormatError]; a key of
    another family a [KeyTypeError]; otherwise the key. *)
Definition fetch (answer : error + Response) : FetchFailure * error + rsa_PublicKey :=
  match answer with
  | inl err => inl (FetchError, err)
  | inr resp =>
    match Body resp with
    | inl err => inl (FetchError, err)
    | inr raw =>
      match pem_Decode raw with
      | None => inl (FormatError, errors_New "invalid PEM")
      | Some (block, _) =>
        match x509_ParsePKIXPublicKey (Bytes block) with
        | inl err => inl (FormatError, err)
        | inr (pub_rsa k) => inr k
        | inr _ => inl (KeyTypeError, errors_New "not RSA public key")
        end
      end
    end
  end.

(** The outcomes of the [n] fetches from [u] that follow the requests
    already made in [w]. *)
Definition outcomes (u : string) (w : World) (n : nat)
  : list (FetchFailure * error + rsa_PublicKey) :=
  (λ i, fetch (transport i u)) <$> seq (length (requests w)) n.

End Library.

(** The key a fetch yields, if it does. *)
Definition key_of {F} (o : F + rsa_PublicKey) : option rsa_PublicKey :=
  match o with
  | inr k => Some k
  | inl _ => None
  end.

(** The key in force after a run of fetches: the last one that
    succeeded, or the key held before when none did. *)
Definition latest {F} (k : rsa_PublicKey) (outcomes : list (F + rsa_PublicKey))
  : rsa_PublicKey :=
  fold_left (fun k o => match o with inr k' => k' | inl _ => k end) outcomes k.

End Spec.

(** ** What the threads of the interleaved system hold *)

Module Threads.

Import Crypto.

(** The refresher is between [r.mu.Lock()] and [r.mu.Unlock()]. *)
Definition holds_write (l : loop_pc) : bool :=
  match l with
  | refreshing (at_SetKey _) | refreshing at_SetTime | refreshing at_Unlock => true
  | _ => false
  end.

(** A call of [Get] is between [r.mu.RLock()] and [r.mu.RUnlock()]. *)
Definition holds_read (pc : get_pc) : bool :=
  match pc with
  | at_Read | at_RUnlock _ => true
  | _ => false
  end.

(** The refresher's next statement talks to the network. *)
Definition on_network (l : loop_pc) : bool :=
  match l with
  | refreshing at_Get | refreshing (at_ReadAll _) => true
  | _ => false
  end.

(** The next statement writes, respectively reads, a field the mutex
    guards. *)
Definition writes_shared (l : loop_pc) : bool :=
  match l with
  | refreshing (at_SetKey _) | refreshing at_SetTime => true
  | _ => false
  end.

Definition reads_shared (pc : get_pc) : bool :=
  match pc with
  | at_Read => true
  | _ => false
  end.

(** The value a call of [Get] has read, once it has. *)
Definition value_read (pc : get_pc) : option (option rsa_PublicKey) :=
  match pc with
  | at_RUnlock v | got v => Some v
  | _ => None
  end.

(** A refresh has sent its request and not yet stored a key. *)
Definition in_flight (l : loop_pc) : bool :=
  match l with
  | refreshing (at_ReadAll _) | refreshing (at_Decode _) | refreshing (at_Parse _)
  | refreshing (at_Assert _) | refreshing (at_Lock _) | refreshing (at_SetKey _) => true
  | _ => false
  end.

Definition readers_in (callers : list get_pc) : nat :=
  length (filter (λ pc, holds_read pc = true) callers).

Section Library.

Variable transport : nat -> string -> error + Response.
Variable pem_Decode : bytes -> option (pem_Block * bytes).
Variable x509_ParsePKIXPublicKey : bytes -> error + PKIXPublicKey.

(** The key a call of [refresh] is going to store, as far as the
    locals it holds decide it. *)
Definition pending (pc : refresh_pc) : option rsa_PublicKey :=
  match pc with
  | at_ReadAll resp =>
    match io_ReadAll resp with
    | inr raw =>
      match pem_Decode raw with
      | Some (block, _) =>
        match x509_ParsePKIXPublicKey (Bytes block) with
        | inr (pub_rsa k) => Some k
        | _ => None
        end
      | None => None
      end
    | inl _ => None
    end
  | at_Decode raw =>
    match pem_Decode raw with
    | Some (block, _) =>
      match x509_ParsePKIXPublicKey (Bytes block) with
      | inr (pub_rsa k) => Some k
      | _ => None
      end
    | None => None
    end
  | at_Parse block =>
    match x509_ParsePKIXPublicKey (Bytes block) with
    | inr (pub_rsa k) => Some k
    | _ => None
    end
  | at_Assert (pub_rsa k) | at_Lock k | at_SetKey k => Some k
  | _ => None
  end.

Definition pending_of (l : loop_pc) : option rsa_PublicKey :=
  match l with
  | refreshing pc => pending pc
  | waiting => None
  end.

(** The system started from cache [r0] holding key [k0] in world [w0]:
    how many refreshes have sent their request, and how many of them
    have had their say on the key. *)
Definition started (w0 : World) (s : System) : nat :=
  length (requests (world s)) - length (requests w0).

Definition settled (w0 : World) (s : System) : nat :=
  started w0 s - (if in_flight (refresher s) then 1 else 0).

(** The key single-threaded code holds after [n] refreshes. *)
Definition key_after (r0 : RemotePublicKey) (w0 : World) (k0 : rsa_PublicKey) (n : nat)
  : rsa_PublicKey :=
  Spec.latest k0 (Spec.outcomes transport pem_Decode x509_ParsePKIXPublicKey
                                (url r0) w0 n).

(** What holds of every state the system reaches. *)
Record invariant (r0 : RemotePublicKey) (w0 : World) (k0 : rsa_PublicKey) (s : System)
  : Prop := mkInvariant {
  inv_url : url (cache s) = url r0;
  inv_mu : mu (cache s)
           = RWMutex.mk (holds_write (refresher s)) (readers_in (callers s));
  inv_excl : holds_write (refresher s) = true → readers_in (callers s) = 0%nat;
  inv_requests : (length (requests w0) ≤ length (requests (world s)))%nat;
  inv_key : publicKey (cache s) = Some (key_after r0 w0 k0 (settled w0 s));
  inv_flight : in_flight (refresher s) = true →
    (length (requests w0) < length (requests (world s)))%nat ∧
    pending_of (refresher s)
    = Spec.key_of (Spec.fetch pem_Decode x509_ParsePKIXPublicKey
                     (transport (length (requests (world s)) - 1) (url r0)));
  inv_read : ∀ i pc v, callers s !! i = Some pc → value_read pc = Some v →
    ∃ n, (n ≤ started w0 s)%nat ∧ v = Some (key_after r0 w0 k0 n)
}.

End Library.

#[global] Arguments readers_in : simpl never.
#[global] Arguments key_after : simpl never.
#[global] Arguments started : simpl never.
#[global] Arguments settled : simpl never.

End Threads.

(** ** Further vocabulary for the properties beyond the claims *)

Module More.

Section Library.

Variable pem_Decode : bytes -> option (pem_Block * bytes).

(** What [refresh] gets to see of an answer: the error of the request
    or of reading the body, or the bytes of the first PEM block of the
    body, if there is one. *)
Definition der_of (answer : error + Response) : error + option bytes :=
  match answer with
  | inl err => inl err
  | inr resp =>
    match Body resp with
    | inl err => inl err
    | inr raw => inr (Bytes <$> (fst <$> pem_Decode raw))
    end
  end.

End Library.

(** The time a list of waits adds up to. *)
Definition elapsed (waits : list Duration) : Duration := foldr Z.add 0 waits.

(** The variable as [os.Getenv] finds it once [.env] is loaded: the
    process environment first, then the file. *)
Definition configured (key : string) (w : World) : string :=
  match environ w !! key with
  | Some value => value
  | None =>
    match dotenv w with
    | Some file => default "" (file !! key)
    | None => ""
    end
  end.

(** All calls of [Get] in flight have returned. *)
Definition all_returned (callers : list Crypto.get_pc) : Prop :=
  Forall (λ pc, ∃ v, pc = Crypto.got v) callers.

(** The refresher stands at [r.mu.Lock()]: it is about to make the call,
    or has made it and waits for the readers to leave. *)
Definition writer_waits (l : Crypto.loop_pc) : bool :=
  match l with
  | Crypto.refreshing (Crypto.at_Lock _) => true
  | _ => false
  end.

Section Precedence.

Variable transport : nat -> string -> error + Response.
Variable pem_Decode : bytes -> option (pem_Block * bytes).
Variable x509_ParsePKIXPublicKey : bytes -> error + PKIXPublicKey.

(** The steps the program is sure to be able to take.  In
    [sync.RWMutex] a call of [RLock] blocks not only while a writer
    holds the mutex but from the moment a writer has called [Lock].  A
    state does not tell whether the refresher standing at [Lock] has
    made the call, so here a call of [Get] at [r.mu.RLock()] waits
    whenever the refresher stands there.  Every other step is as in
    [Crypto.step]. *)
Definition sure_step (a : Crypto.Action) (s : Crypto.System) : option Crypto.System :=
  match a with
  | Crypto.Caller i =>
    match Crypto.callers s !! i with
    | Some Crypto.at_RLock =>
      if writer_waits (Crypto.refresher s) then None
      else Crypto.step transport pem_Decode x509_ParsePKIXPublicKey a s
    | _ => Crypto.step transport pem_Decode x509_ParsePKIXPublicKey a s
    end
  | _ => Crypto.step transport pem_Decode x509_ParsePKIXPublicKey a s
  end.

Fixpoint sure_run (sched : list Crypto.Action) (s : Crypto.System)
  : option Crypto.System :=
  match sched with
  | [] => Some s
  | a :: sched => s ← sure_step a s; sure_run sched s
  end.

End Precedence.

(** A step of the refresher or of a call of [Get]: no tick, no time
    passing, no new call. *)
Definition of_thread (a : Crypto.Action) : Prop :=
  a = Crypto.Refresher ∨ ∃ i, a = Crypto.Caller i.

End More.

(** Two more key servers: one answers 200, the other 500, with the same
    body; and a PEM decoder that reports another block type, headers
    and bytes left over. *)
Module Cases.

Definition ok_server (n : nat) (u : string) : error + Response :=
  inr (mkResponse 200 (inr [Byte.x01])).

Definition failing_server (n : nat) (u : string) : error + Response :=
  inr (mkResponse 500 (inr [Byte.x01])).

Definition pem_Decode (raw : bytes) : option (pem_Block * bytes) :=
  match raw with
  | [tag] => Some (mkBlock "CERTIFICATE" {[ "Proc-Type" := "4,ENCRYPTED" ]} [tag],
                   [Byte.x0a; Byte.x0a])
  | _ => None
  end.

(** A process with no [PUBLIC_KEY_URL] anywhere, and one that has it in
    [.env] only. *)
Definition bare_world : World := mkWorld [] 1000 ∅ None [].

Definition dotenv_world : World :=
  mkWorld [] 1000 {[ "HOME" := "/root" ]}
          (Some {[ "PUBLIC_KEY_URL" := Demo.key_url; "HOME" := "/tmp" ]}) [].

(** One call of [Get] is between [RLock] and its read when the second
    refresh comes to [Lock], and another call arrives behind it: the
    refresher waits for the first call, the second call for the
    refresher. *)
Definition queued_schedule : list Crypto.Action :=
  [ Crypto.Arrive; Crypto.Caller 0;
    Crypto.Tick; Crypto.Refresher; Crypto.Refresher;
    Crypto.Tick; Crypto.Refresher; Crypto.Refresher;
    Crypto.Refresher; Crypto.Refresher; Crypto.Refresher;
    Crypto.Arrive ].

Definition queued : Crypto.System :=
  Crypto.mkSystem
    (Crypto.mkRemote Demo.key_url (Some Demo.key1) 1000 (5 * time_Minute)
                     (RWMutex.mk false 1))
    (mkWorld [Demo.key_url; Demo.key_url; Demo.key_url] 1000
             {[ "PUBLIC_KEY_URL" := Demo.key_url ]} None [])
    (Crypto.refreshing (Crypto.at_Lock Demo.key2)) [Crypto.at_Read; Crypto.at_RLock].

End Cases.

(** * Theorems *)

(** ** The cache, single-threaded *)

Section CacheFacts.

Import Crypto.

Variable transport : nat -> string -> error + Response.
Variable pem_Decode : bytes -> option (pem_Block * bytes).
Variable x509_ParsePKIXPublicKey : bytes -> error + PKIXPublicKey.

Local Abbreviation refresh := (refresh transport pem_Decode x509_ParsePKIXPublicKey).
Local Abbreviation autoRefresh_loop :=
  (autoRefresh_loop transport pem_Decode x509_ParsePKIXPublicKey).
Local Abbreviation NewRemotePublicKey :=
  (NewRemotePublicKey transport pem_Decode x509_ParsePKIXPublicKey).
Local Abbreviation fetch := (Spec.fetch pem_Decode x509_ParsePKIXPublicKey).
Local Abbreviation answer := (Spec.answer transport).
Local Abbreviation outcomes := (Spec.outcomes transport pem_Decode x509_ParsePKIXPublicKey).

(** [refresh] is the specification's fetch followed by the store. *)
Lemma refresh_fetch r w :
  refresh r w =
  match fetch (answer (url r) w) with
  | inl (_, err) => (r, Some err, Spec.asked (url r) w)
  | inr k =>
    (mkRemote (url r) (Some k) (now w) (refreshEvery r) (mu r), None, Spec.asked (url r) w)
  end.
Proof.
  unfold Crypto.refresh, Spec.fetch, http_Get, io_ReadAll, Spec.answer, Spec.asked.
  destruct (transport _ _) as [err|resp]; [done|].
  destruct (Body resp) as [err|raw]; [done|].
  destruct (pem_Decode raw) as [[block rest]|]; [|done].
  destruct (x509_ParsePKIXPublicKey _) as [err|[k| | | |]]; done.
Qed.

Lemma refresh_failed r w r' err w' :
  refresh r w = (r', Some err, w') → r' = r.
Proof.
  rewrite refresh_fetch.
  destruct (fetch _) as [[kind e]|k]; congruence.
Qed.

Lemma refresh_stored r w r' w' :
  refresh r w = (r', None, w') →
  ∃ k, fetch (answer (url r) w) = inr k ∧ publicKey r' = Some k ∧
       lastUpdated r' = now w.
Proof.
  rewrite refresh_fetch.
  destruct (fetch _) as [[kind e]|k]; [congruence|].
  intros [= <- <-]. by exists k.
Qed.

Lemma refresh_world r w :
  (refresh r w).2 = Spec.asked (url r) w.
Proof.
  rewrite refresh_fetch. by destruct (fetch _) as [[kind e]|k].
Qed.

Lemma refresh_frame r w :
  let r' := (refresh r w).1.1 in
  url r' = url r ∧ refreshEvery r' = refreshEvery r ∧ mu r' = mu r.
Proof.
  rewrite refresh_fetch. by destruct (fetch _) as [[kind e]|k].
Qed.

(** A refresh never takes the key away. *)
Lemma refresh_keeps_key r w :
  is_Some (publicKey r) → is_Some (publicKey (refresh r w).1.1).
Proof.
  rewrite refresh_fetch. destruct (fetch _) as [[kind e]|k]; [done|].
  intros _. by eexists.
Qed.

(** With a positive interval the ticker is created and the loop runs. *)
Lemma autoRefresh_runs waits r w :
  0 < refreshEvery r →
  autoRefresh transport pem_Decode x509_ParsePKIXPublicKey waits r w
  = Some (autoRefresh_loop waits r w).
Proof.
  intros Hpos. unfold Crypto.autoRefresh. by rewrite decide_False by lia.
Qed.

Lemma autoRefresh_loop_keeps_key waits : ∀ r w,
  is_Some (publicKey r) → is_Some (publicKey (autoRefresh_loop waits r w).1).
Proof.
  induction waits as [|d waits IH]; intros r w Hk; [done|].
  cbn [Crypto.autoRefresh_loop].
  pose proof (refresh_keeps_key r (with_now w (now w + d)) Hk) as Hk'.
  destruct (refresh r (with_now w (now w + d))) as [[r1 e1] w1].
  by apply IH.
Qed.

Lemma autoRefresh_loop_frame waits : ∀ r w,
  let r' := (autoRefresh_loop waits r w).1 in
  url r' = url r ∧ refreshEvery r' = refreshEvery r ∧ mu r' = mu r.
Proof.
  induction waits as [|d waits IH]; intros r w; [done|].
  cbn [Crypto.autoRefresh_loop].
  pose proof (refresh_frame r (with_now w (now w + d))) as (Hu & He & Hm).
  destruct (refresh r (with_now w (now w + d))) as [[r1 e1] w1].
  cbn in Hu, He, Hm. cbn zeta.
  destruct (IH r1 w1) as (Hu' & He' & Hm'). cbn zeta in *.
  repeat split; congruence.
Qed.

Lemma autoRefresh_loop_latest waits : ∀ r w k,
  publicKey r = Some k →
  Get (autoRefresh_loop waits r w).1
  = Some (Spec.latest k (outcomes (url r) w (length waits))).
Proof.
  induction waits as [|d waits IH]; intros r w k Hk; [done|].
  cbn [Crypto.autoRefresh_loop length].
  pose proof (refresh_fetch r (with_now w (now w + d))) as Hr.
  destruct (refresh r (with_now w (now w + d))) as [[r1 e1] w1].
  unfold Spec.outcomes. cbn [seq fmap list_fmap Spec.latest fold_left].
  unfold Spec.answer, Spec.asked in Hr. cbn in Hr.
  destruct (fetch (transport (length (requests w)) (url r))) as [[kind e]|k'];
    injection Hr as -> -> ->.
  - rewrite (IH r _ k Hk). unfold Spec.outcomes. cbn. by rewrite length_app, Nat.add_1_r.
  - erewrite IH by reflexivity. unfold Spec.outcomes. cbn.
    by rewrite length_app, Nat.add_1_r.
Qed.

Lemma NewRemotePublicKey_fetch u every w :
  NewRemotePublicKey u every w =
  match fetch (answer u w) with
  | inl (_, err) => (None, Some err, Spec.asked u w)
  | inr k => (Some (mkRemote u (Some k) (now w) every RWMutex.zero), None, Spec.asked u w)
  end.
Proof.
  unfold Crypto.NewRemotePublicKey. rewrite refresh_fetch. cbn.
  by destruct (fetch _) as [[kind e]|k].
Qed.

End CacheFacts.

(** ** The cache, interleaved *)

Section SystemFacts.

Import Crypto Threads.

Variable transport : nat -> string -> error + Response.
Variable pem_Decode : bytes -> option (pem_Block * bytes).
Variable x509_ParsePKIXPublicKey : bytes -> error + PKIXPublicKey.

Local Abbreviation refresh := (refresh transport pem_Decode x509_ParsePKIXPublicKey).
Local Abbreviation refresh_step :=
  (refresh_step transport pem_Decode x509_ParsePKIXPublicKey).
Local Abbreviation refresh_steps :=
  (refresh_steps transport pem_Decode x509_ParsePKIXPublicKey).
Local Abbreviation step := (step transport pem_Decode x509_ParsePKIXPublicKey).
Local Abbreviation run := (run transport pem_Decode x509_ParsePKIXPublicKey).
Local Abbreviation fetch := (Spec.fetch pem_Decode x509_ParsePKIXPublicKey).
Local Abbreviation pending := (pending pem_Decode x509_ParsePKIXPublicKey).
Local Abbreviation key_after :=
  (key_after transport pem_Decode x509_ParsePKIXPublicKey).
Local Abbreviation invariant :=
  (invariant transport pem_Decode x509_ParsePKIXPublicKey).

Lemma refresh_steps_returned n err r w :
  refresh_steps n (returned err) r w = Some (r, err, w).
Proof. by destruct n. Qed.

Lemma refresh_steps_next n pc r w pc' r' w' :
  refresh_step pc r w = Some (pc', r', w') →
  refresh_steps (S n) pc r w = refresh_steps n pc' r' w'.
Proof.
  intros Hstep. destruct pc; try (cbn [Crypto.refresh_steps]; by rewrite Hstep).
  discriminate Hstep.
Qed.

(** Run alone on a free mutex, the statements of [refresh] compute
    what the single-threaded reading says, mutex included. *)
Lemma refresh_steps_agree r w :
  mu r = RWMutex.zero →
  refresh_steps 9 at_Get r w = Some (refresh r w).
Proof.
  intros Hmu. unfold Crypto.refresh.
  destruct (http_Get transport (url r) w) as [[err|resp] w1] eqn:Hget.
  { erewrite refresh_steps_next by (cbn [Crypto.refresh_step]; by rewrite Hget).
    apply refresh_steps_returned. }
  erewrite refresh_steps_next by (cbn [Crypto.refresh_step]; by rewrite Hget).
  destruct (io_ReadAll resp) as [err|raw] eqn:Hread.
  { erewrite refresh_steps_next by (cbn [Crypto.refresh_step]; by rewrite Hread).
    apply refresh_steps_returned. }
  erewrite refresh_steps_next by (cbn [Crypto.refresh_step]; by rewrite Hread).
  destruct (pem_Decode raw) as [[block rest]|] eqn:Hpem.
  2:{ erewrite refresh_steps_next by (cbn [Crypto.refresh_step]; by rewrite Hpem).
      apply refresh_steps_returned. }
  erewrite refresh_steps_next by (cbn [Crypto.refresh_step]; by rewrite Hpem).
  destruct (x509_ParsePKIXPublicKey (Bytes block)) as [err|pub] eqn:Hparse.
  { erewrite refresh_steps_next by (cbn [Crypto.refresh_step]; by rewrite Hparse).
    apply refresh_steps_returned. }
  erewrite refresh_steps_next by (cbn [Crypto.refresh_step]; by rewrite Hparse).
  destruct pub as [k| | | |];
    try (erewrite refresh_steps_next by reflexivity; apply refresh_steps_returned).
  erewrite refresh_steps_next by reflexivity.
  erewrite refresh_steps_next by (cbn [Crypto.refresh_step]; by rewrite Hmu).
  erewrite refresh_steps_next by reflexivity.
  erewrite refresh_steps_next by reflexivity.
  erewrite refresh_steps_next by reflexivity.
  rewrite refresh_steps_returned.
  destruct r as [u k0 t e m]. cbn in Hmu. by subst m.
Qed.

Lemma get_steps_agree r :
  mu r = RWMutex.zero →
  get_steps 3 at_RLock r = Some (Get r, r).
Proof. destruct r as [u k t e m]. intros Hmu. cbn in Hmu. subst m. reflexivity. Qed.

(** *** Counting the readers *)

Lemma readers_in_arrive l : readers_in (l ++ [at_RLock]) = readers_in l.
Proof.
  unfold readers_in. rewrite filter_app, length_app.
  rewrite filter_cons, filter_nil. case_decide; [done|]. cbn. lia.
Qed.

Lemma readers_in_insert l : ∀ i pc pc',
  l !! i = Some pc →
  (readers_in (<[i := pc']> l) + (if holds_read pc then 1 else 0)
   = readers_in l + (if holds_read pc' then 1 else 0))%nat.
Proof.
  unfold readers_in.
  induction l as [|x l IH]; intros [|i] pc pc' Hl; try done.
  - cbn in Hl. injection Hl as ->. cbn [insert list_insert].
    rewrite !filter_cons.
    destruct (holds_read pc) eqn:Hp, (holds_read pc') eqn:Hp';
      repeat case_decide; try congruence; cbn; lia.
  - cbn in Hl. change (<[S i:=pc']> (x :: l)) with (x :: <[i:=pc']> l).
    rewrite !filter_cons.
    specialize (IH i pc pc' Hl).
    case_decide; cbn; lia.
Qed.

Lemma readers_in_pos l i pc :
  l !! i = Some pc → holds_read pc = true → (0 < readers_in l)%nat.
Proof.
  intros Hl Hp. unfold readers_in.
  assert (pc ∈ filter (λ pc, holds_read pc = true) l) as Hin.
  { apply list_elem_of_filter. split; [done|]. by eapply list_elem_of_lookup_2. }
  destruct (filter _ l); [by apply elem_of_nil in Hin | cbn; lia].
Qed.

(** *** The key after one more fetch *)

Lemma key_after_S r0 w0 k0 n :
  key_after r0 w0 k0 (S n) =
  match fetch (transport (length (requests w0) + n) (url r0)) with
  | inr k => k
  | inl _ => key_after r0 w0 k0 n
  end.
Proof.
  unfold Threads.key_after, Spec.outcomes, Spec.latest.
  rewrite seq_S, fmap_app, fold_left_app. done.
Qed.

(** *** The invariant *)

Lemma key_after_0 r0 w0 k0 : key_after r0 w0 k0 0 = k0.
Proof. done. Qed.

Lemma key_after_last r0 w0 k0 n :
  key_after r0 w0 k0 (S n) =
  default (key_after r0 w0 k0 n)
          (Spec.key_of (fetch (transport (length (requests w0) + n) (url r0)))).
Proof. rewrite key_after_S. by destruct (fetch _). Qed.

Lemma invariant_boot r0 w0 k0 :
  mu r0 = RWMutex.zero → publicKey r0 = Some k0 →
  invariant r0 w0 k0 (boot r0 w0).
Proof.
  intros Hmu Hk. split; cbn; try done.
  unfold Threads.settled, Threads.started. cbn.
  by rewrite Nat.sub_diag.
Qed.

(** The statements between the request and the lock work on locals
    only, and carry the key to be stored along or give up. *)
Lemma flight_step pc r w pc' r' w' :
  refresh_step pc r w = Some (pc', r', w') →
  in_flight (refreshing pc) = true → holds_write (refreshing pc') = false →
  r' = r ∧ w' = w ∧
  match pc' with
  | returned _ => pending pc = None
  | _ => pending pc' = pending pc ∧ in_flight (refreshing pc') = true
  end ∨ (∃ k, pc = at_Lock k).
Proof.
  intros Hstep Hin Hout.
  destruct pc as [|resp|raw|block|pub|k|k| | |e]; try done; cbn in Hstep.
  - cbn. unfold io_ReadAll in *.
    destruct (Body resp) as [err|raw]; injection Hstep as <- <- <-; [by left|].
    left. repeat split; try done.
  - destruct (pem_Decode raw) as [[block rest]|] eqn:Hpem;
      injection Hstep as <- <- <-; left; cbn; rewrite ?Hpem; done.
  - destruct (x509_ParsePKIXPublicKey (Bytes block)) as [err|pub] eqn:Hparse;
      injection Hstep as <- <- <-; left; cbn; rewrite ?Hparse; [done|].
    by destruct pub.
  - destruct pub; injection Hstep as <- <- <-; left; done.
  - right. by exists k.
  - injection Hstep as <- <- <-. done.
Qed.

Lemma pending_answer resp :
  pending (at_ReadAll resp) = Spec.key_of (fetch (inr resp)).
Proof.
  cbn. unfold io_ReadAll. destruct (Body resp) as [err|raw]; [done|].
  destruct (pem_Decode raw) as [[block rest]|]; [|done].
  by destruct (x509_ParsePKIXPublicKey _) as [err|[k| | | |]].
Qed.

Lemma lock_free_step pc r w pc' r' w' :
  refresh_step pc r w = Some (pc', r', w') →
  holds_write (refreshing pc) = false → (∀ k, pc ≠ at_Lock k) →
  holds_write (refreshing pc') = false.
Proof.
  intros Hrs Hw Hne.
  destruct pc as [|resp|raw|block|pub|k|k| | |e]; try done; cbn in Hrs;
    try (repeat case_match; by simplify_eq).
  by specialize (Hne k).
Qed.

(** From the request to the lock. *)
Lemma flight_invariant r0 w0 k0 r w pc cs pc' r' w' :
  invariant r0 w0 k0 (mkSystem r w (refreshing pc) cs) →
  in_flight (refreshing pc) = true → holds_write (refreshing pc) = false →
  (∀ k, pc ≠ at_Lock k) →
  refresh_step pc r w = Some (pc', r', w') →
  invariant r0 w0 k0 (mkSystem r' w' (refreshing pc') cs).
Proof.
  intros [Hurl Hmu Hexcl Hreq Hkey Hflight Hread] Hin Hw Hne Hrs.
  pose proof (lock_free_step _ _ _ _ _ _ Hrs Hw Hne) as Hout.
  unfold Threads.settled, Threads.started in Hkey.
  cbn [cache world refresher callers] in *.
  destruct (Hflight Hin) as [Hlt Hpend]. cbn [Threads.pending_of] in Hpend.
  rewrite Hin in Hkey.
  destruct (flight_step _ _ _ _ _ _ Hrs Hin Hout) as [(-> & -> & Hp)|[k ->]];
    [|by specialize (Hne k)].
  split; cbn [cache world refresher callers]; try done.
  - by rewrite Hout, <- Hw.
  - by rewrite Hout.
  - unfold Threads.settled, Threads.started.
    cbn [cache world refresher callers].
    destruct pc'; try (apply proj2 in Hp; by rewrite Hp).
    cbn. rewrite Hkey. f_equal.
    replace (length (requests w) - length (requests w0) - 0)%nat
      with (S (length (requests w) - length (requests w0) - 1)) by lia.
    rewrite key_after_last.
    replace (length (requests w0) + (length (requests w) - length (requests w0) - 1))%nat
      with (length (requests w) - 1)%nat by lia.
    by rewrite <- Hpend, Hp.
  - intros Hin'. split; [done|].
    rewrite <- Hpend. cbn [Threads.pending_of].
    destruct pc'; try done; by destruct Hp as [-> _].
Qed.

Lemma step_refresher_invariant r0 w0 k0 s s' :
  invariant r0 w0 k0 s → step Refresher s = Some s' → invariant r0 w0 k0 s'.
Proof.
  intros Hinv Hstep. destruct s as [r w l cs].
  cbn -[Crypto.refresh_step] in Hstep.
  destruct l as [|pc]; [done|].
  destruct pc as [|resp|raw|block|pub|k|k| | |e];
    try (destruct (refresh_step _ r w) as [[[pc' r'] w']|] eqn:Hrs; [|done];
         cbn in Hstep; injection Hstep as <-).
  - (* http.Get *)
    destruct Hinv as [Hurl Hmu Hexcl Hreq Hkey Hflight Hread].
    unfold Threads.settled, Threads.started in Hkey.
    cbn [cache world refresher callers] in *. cbn in Hrs, Hkey.
    rewrite Nat.sub_0_r in Hkey.
    assert (length (requests w ++ [url r]) - length (requests w0)
            = S (length (requests w) - length (requests w0)))%nat as Hlen
      by (rewrite length_app; cbn; lia).
    destruct (transport (length (requests w)) (url r)) as [err|resp] eqn:Htr;
      injection Hrs as <- <- <-; split; cbn [cache world refresher callers];
      unfold Threads.settled, Threads.started; cbn; try done.
    + rewrite length_app. lia.
    + rewrite Hlen, Nat.sub_0_r, key_after_last.
      replace (length (requests w0) + (length (requests w) - length (requests w0)))%nat
        with (length (requests w)) by lia.
      by rewrite <- Hurl, Htr.
    + intros i pc v Hi Hv. destruct (Hread i pc v Hi Hv) as (n & Hn & ->).
      exists n. split; [|done]. rewrite Hlen. unfold Threads.started in Hn. cbn in Hn. lia.
    + rewrite length_app. lia.
    + rewrite Hlen. by replace (S (length (requests w) - length (requests w0)) - 1)%nat
        with (length (requests w) - length (requests w0))%nat by lia.
    + intros _. split; [rewrite length_app; cbn; lia|].
      rewrite length_app. cbn.
      replace (length (requests w) + 1 - 1)%nat with (length (requests w)) by lia.
      rewrite <- Hurl, Htr. apply pending_answer.
    + intros i pc v Hi Hv. destruct (Hread i pc v Hi Hv) as (n & Hn & ->).
      exists n. split; [|done]. rewrite Hlen. unfold Threads.started in Hn. cbn in Hn. lia.
  - by eapply flight_invariant.
  - by eapply flight_invariant.
  - by eapply flight_invariant.
  - by eapply flight_invariant.
  - (* r.mu.Lock() *)
    destruct Hinv as [Hurl Hmu Hexcl Hreq Hkey Hflight Hread].
    cbn [cache world refresher callers] in *. cbn in Hrs.
    rewrite Hmu in Hrs. cbn in Hrs.
    destruct (readers_in cs) eqn:Hcs; [|done]. injection Hrs as <- <- <-.
    split; cbn [cache world refresher callers]; try done.
    by rewrite Hcs.
  - (* r.publicKey = rsaPub *)
    destruct Hinv as [Hurl Hmu Hexcl Hreq Hkey Hflight Hread].
    cbn [cache world refresher callers] in *. cbn in Hrs.
    injection Hrs as <- <- <-.
    destruct (Hflight eq_refl) as [Hlt Hpend]. cbn in Hpend.
    split; cbn [cache world refresher callers]; try done.
    unfold Threads.settled, Threads.started. cbn. f_equal.
    replace (length (requests w) - length (requests w0) - 0)%nat
      with (S (length (requests w) - length (requests w0) - 1)) by lia.
    rewrite key_after_last.
    replace (length (requests w0) + (length (requests w) - length (requests w0) - 1))%nat
      with (length (requests w) - 1)%nat by lia.
    by rewrite <- Hpend.
  - (* r.lastUpdated = time.Now() *)
    destruct Hinv as [Hurl Hmu Hexcl Hreq Hkey Hflight Hread].
    cbn [cache world refresher callers] in *. cbn in Hrs.
    injection Hrs as <- <- <-. by split.
  - (* r.mu.Unlock() *)
    destruct Hinv as [Hurl Hmu Hexcl Hreq Hkey Hflight Hread].
    cbn [cache world refresher callers] in *. cbn in Hrs.
    rewrite Hmu in Hrs. cbn in Hrs. injection Hrs as <- <- <-.
    by split.
  - (* back to the loop *)
    destruct Hinv as [Hurl Hmu Hexcl Hreq Hkey Hflight Hread].
    cbn in Hstep. injection Hstep as <-. by split.
Qed.

Lemma step_caller_invariant r0 w0 k0 i s s' :
  invariant r0 w0 k0 s → step (Caller i) s = Some s' → invariant r0 w0 k0 s'.
Proof.
  intros [Hurl Hmu Hexcl Hreq Hkey Hflight Hread] Hstep.
  destruct s as [r w l cs]. cbn [cache world refresher callers] in *.
  cbn -[Crypto.get_step] in Hstep.
  destruct (cs !! i) as [pc|] eqn:Hi; [|done]. cbn -[Crypto.get_step] in Hstep.
  destruct (get_step pc r) as [[pc' r']|] eqn:Hgs; [|done].
  cbn in Hstep. injection Hstep as <-.
  pose proof (readers_in_insert cs i pc pc' Hi) as Hcount.
  assert (∀ j pc1 v, <[i:=pc']> cs !! j = Some pc1 → value_read pc1 = Some v →
            (j = i ∧ pc1 = pc') ∨ (cs !! j = Some pc1)) as Hlook.
  { intros j pc1 v Hj _. destruct (decide (j = i)) as [->|Hne].
    - left. split; [done|].
      rewrite list_lookup_insert_eq in Hj by (by eapply lookup_lt_Some). congruence.
    - right. by rewrite list_lookup_insert_ne in Hj. }
  destruct pc as [| |v|v]; cbn in Hgs; [| | |done].
  - (* r.mu.RLock() *)
    rewrite Hmu in Hgs. cbn in Hgs.
    destruct (holds_write l) eqn:Hw; [done|]. cbn in Hgs. injection Hgs as <- <-.
    cbn in Hcount.
    split; cbn [cache world refresher callers]; try done.
    + cbn. rewrite Hw. f_equal. lia.
    + by rewrite Hw.
    + intros j pc1 v Hj Hv.
      destruct (Hlook j pc1 v Hj Hv) as [[-> ->]|Hj']; [done|by eapply Hread].
  - (* return r.publicKey *)
    injection Hgs as <- <-. cbn in Hcount.
    split; cbn [cache world refresher callers]; try done.
    + rewrite Hmu. f_equal. lia.
    + intros Hw. specialize (Hexcl Hw). lia.
    + intros j pc1 v Hj Hv.
      destruct (Hlook j pc1 v Hj Hv) as [[-> ->]|Hj']; [|by eapply Hread].
      cbn in Hv. injection Hv as <-.
      exists (settled w0 (mkSystem r w l cs)). split; [|done].
      unfold Threads.settled, Threads.started. cbn. lia.
  - (* the deferred r.mu.RUnlock() *)
    rewrite Hmu in Hgs. cbn in Hgs.
    pose proof (readers_in_pos cs i _ Hi eq_refl) as Hpos.
    destruct (readers_in cs) as [|n] eqn:Hcs; [lia|]. injection Hgs as <- <-.
    cbn in Hcount.
    split; cbn [cache world refresher callers]; try done.
    + cbn. f_equal. lia.
    + intros Hw. specialize (Hexcl Hw). lia.
    + intros j pc1 v1 Hj Hv.
      destruct (Hlook j pc1 v1 Hj Hv) as [[-> ->]|Hj']; [|by eapply Hread].
      cbn in Hv. injection Hv as <-. by eapply (Hread i (at_RUnlock v)).
Qed.

Lemma step_invariant r0 w0 k0 a s s' :
  invariant r0 w0 k0 s → step a s = Some s' → invariant r0 w0 k0 s'.
Proof.
  intros Hinv Hstep.
  destruct a as [d| | | |i];
    [| |by eapply step_refresher_invariant| |by eapply step_caller_invariant].
  - (* time passes *)
    destruct Hinv as [Hurl Hmu Hexcl Hreq Hkey Hflight Hread].
    cbn in Hstep. injection Hstep as <-. by split.
  - (* the ticker fires *)
    destruct Hinv as [Hurl Hmu Hexcl Hreq Hkey Hflight Hread].
    destruct s as [r w [|pc] cs]; [|done].
    cbn in Hstep. injection Hstep as <-. by split.
  - (* a call of Get starts *)
    destruct Hinv as [Hurl Hmu Hexcl Hreq Hkey Hflight Hread].
    cbn in Hstep. injection Hstep as <-.
    split; cbn [cache world refresher callers]; rewrite ?readers_in_arrive; try done.
    intros i pc v Hi Hv.
    apply lookup_app_Some in Hi as [Hi|[_ Hi]]; [by eapply Hread|].
    apply list_lookup_singleton_Some in Hi as [_ <-]. done.
Qed.

Lemma run_invariant r0 w0 k0 sched : ∀ s s',
  invariant r0 w0 k0 s → run sched s = Some s' → invariant r0 w0 k0 s'.
Proof.
  induction sched as [|a sched IH]; intros s s' Hinv Hrun.
  - cbn in Hrun. by injection Hrun as <-.
  - cbn -[Crypto.step] in Hrun.
    destruct (step a s) as [s1|] eqn:Hstep; [|done].
    eapply IH; [|done]. by eapply step_invariant.
Qed.

End SystemFacts.

(** ** strings.Split on a single space *)

Section SplitFacts.

Lemma prefix_space a s :
  String.prefix " " (String a s) = bool_decide (a = " "%char).
Proof.
  change (String.prefix " " (String a s))
    with (if Ascii.ascii_dec " " a then String.prefix "" s else false).
  destruct (Ascii.ascii_dec " " a) as [<-|Hne].
  - by destruct s.
  - by rewrite bool_decide_eq_false_2.
Qed.

Lemma split_from_space_cons a s cur :
  split_from " " (String a s) 0 cur =
  if bool_decide (a = " "%char) then cur :: split_from " " s 0 ""
  else split_from " " s 0 (cur ++ String a "").
Proof.
  cbn [split_from]. rewrite prefix_space. done.
Qed.

Lemma append_cons a (s t : string) : String a s ++ t = String a (s ++ t).
Proof. reflexivity. Qed.

Lemma append_nil_l (t : string) : "" ++ t = t.
Proof. reflexivity. Qed.

Lemma append_assoc_1 (cur : string) a s : (cur ++ String a "") ++ s = cur ++ String a s.
Proof.
  induction cur as [|b cur IH]; [done|]. rewrite !append_cons. by f_equal.
Qed.

Lemma append_nil_r (s : string) : s ++ "" = s.
Proof. induction s as [|a s IH]; [done|]. rewrite append_cons. by f_equal. Qed.

(** A piece ends at the first space. *)
Lemma split_from_spaceless s : ∀ cur,
  spaceless s = true → split_from " " s 0 cur = [cur ++ s].
Proof.
  induction s as [|a s IH]; intros cur Hs.
  - cbn. by rewrite append_nil_r.
  - cbn in Hs. apply andb_true_iff in Hs as [Ha Hs].
    rewrite split_from_space_cons.
    rewrite bool_decide_eq_false_2
      by (intros ->; by rewrite bool_decide_eq_true_2 in Ha).
    rewrite IH by done. by rewrite append_assoc_1.
Qed.

Lemma split_from_piece p : ∀ s cur,
  spaceless p = true →
  split_from " " (p ++ String " " s) 0 cur = (cur ++ p) :: split_from " " s 0 "".
Proof.
  induction p as [|a p IH]; intros s cur Hp.
  - rewrite append_nil_l, split_from_space_cons, bool_decide_eq_true_2 by done.
    by rewrite append_nil_r.
  - cbn in Hp. apply andb_true_iff in Hp as [Ha Hp].
    rewrite append_cons, split_from_space_cons.
    rewrite bool_decide_eq_false_2
      by (intros ->; by rewrite bool_decide_eq_true_2 in Ha).
    rewrite IH by done. by rewrite append_assoc_1.
Qed.

(** The pieces hold no space, and joined by spaces they give the
    string back. *)
Lemma split_from_join s : ∀ cur,
  ∃ p ps, split_from " " s 0 cur = (cur ++ p) :: ps ∧
          spaceless p = true ∧ Forall (λ q, spaceless q = true) ps ∧
          s = p ++ join_spaces ps.
Proof.
  induction s as [|a s IH]; intros cur.
  - exists "", []. cbn. by rewrite append_nil_r.
  - rewrite split_from_space_cons. case_bool_decide as Ha.
    + subst a. destruct (IH "") as (p & ps & Hsplit & Hp & Hps & ->).
      exists "", (p :: ps). rewrite Hsplit, append_nil_r, !append_nil_l.
      repeat split; try done. by constructor.
    + destruct (IH (cur ++ String a "")) as (p & ps & Hsplit & Hp & Hps & ->).
      exists (String a p), ps. rewrite Hsplit, append_assoc_1, append_cons.
      repeat split; try done.
      cbn. apply andb_true_iff. split; [|done].
      by rewrite negb_true_iff, bool_decide_eq_false.
Qed.

(** A header splits into the scheme and one more part exactly when it
    is the scheme, one space, and a part without spaces. *)
Lemma split_two (auth scheme tokenStr : string) :
  strings_Split auth " " = [scheme; tokenStr] ↔
  auth = scheme ++ " " ++ tokenStr ∧
  spaceless scheme = true ∧ spaceless tokenStr = true.
Proof.
  unfold strings_Split. split.
  - intros Hsplit.
    destruct (split_from_join auth "") as (p & ps & Hs & Hp & Hps & Hauth).
    rewrite Hs, append_nil_l in Hsplit. injection Hsplit as -> ->.
    apply Forall_cons in Hps as [Ht _].
    rewrite Hauth. cbn [join_spaces]. by rewrite append_nil_r.
  - intros (-> & Hs & Ht).
    change (scheme ++ " " ++ tokenStr) with (scheme ++ String " " tokenStr).
    rewrite split_from_piece by done. by rewrite split_from_spaceless.
Qed.

End SplitFacts.

(** ** The handler *)

Section HandlerFacts.

Import Crypto.

Variable jwt_Parse : Parser.

Local Abbreviation handler := (Middleware.handler jwt_Parse).

Lemma split_empty sep : sep ≠ "" → strings_Split "" sep = [""].
Proof. by destruct sep. Qed.

Lemma handler_missing r now next c :
  GetHeader c "Authorization" = "" →
  handler r now next c = Returned (Spec.rejection Spec.MissingToken c).
Proof.
  intros Hauth. unfold Middleware.handler. rewrite Hauth.
  by rewrite decide_True by done.
Qed.

Lemma handler_malformed r now next c :
  GetHeader c "Authorization" ≠ "" →
  ¬ (length (strings_Split (GetHeader c "Authorization") " ") = 2%nat ∧
     strings_Split (GetHeader c "Authorization") " " !! 0%nat = Some "Bearer") →
  handler r now next c = Returned (Spec.rejection Spec.MalformedHeader c).
Proof.
  intros Hauth Hshape. unfold Middleware.handler.
  rewrite decide_False by done.
  destruct (decide (length (strings_Split (GetHeader c "Authorization") " ") ≠ 2%nat))
    as [Hlen|Hlen]; [done|].
  apply dec_stable in Hlen. unfold index.
  destruct (strings_Split (GetHeader c "Authorization") " ") as [|p0 [|p1 [|]]];
    try done.
  cbn. case_bool_decide as Hp; [done|].
  subst p0. by destruct Hshape.
Qed.

(** What the handler does with the token of a well-shaped header. *)
Lemma handler_bearer r now next c tokenStr :
  strings_Split (GetHeader c "Authorization") " " = ["Bearer"; tokenStr] →
  handler r now next c =
  match jwt_Parse now tokenStr (Middleware.keyFunc r) [] with
  | (_, Some _) => Returned (Spec.rejection Spec.InvalidToken c)
  | (None, None) =>
    Panicked "runtime error: invalid memory address or nil pointer dereference"
  | (Some token, None) =>
    if Valid token then
      match Claims_ token with
      | claims_Map claims => Returned (next (Set_ "claims" (any_MapClaims claims) c))
      | _ => Panicked "interface conversion: jwt.Claims is not jwt.MapClaims"
      end
    else Returned (Spec.rejection Spec.InvalidToken c)
  end.
Proof.
  intros Hsplit. unfold Middleware.handler.
  destruct (decide (GetHeader c "Authorization" = "")) as [Hauth|Hauth].
  { rewrite Hauth in Hsplit. done. }
  rewrite Hsplit. cbn.
  destruct (jwt_Parse now tokenStr (Middleware.keyFunc r) []) as [[token|] [err|]];
    try done.
  cbn. by destruct (Valid token).
Qed.

(** The handler looks at the cache through [Get] only. *)
Lemma handler_reads_key_only r r' now next c :
  Get r = Get r' → handler r now next c = handler r' now next c.
Proof.
  intros Hget. unfold Middleware.handler, Middleware.keyFunc. by rewrite Hget.
Qed.

End HandlerFacts.

(** * The claims *)

Section CacheClaims.

Import Crypto Threads.

Variable transport : nat -> string -> error + Response.
Variable pem_Decode : bytes -> option (pem_Block * bytes).
Variable x509_ParsePKIXPublicKey : bytes -> error + PKIXPublicKey.

Local Abbreviation refresh := (refresh transport pem_Decode x509_ParsePKIXPublicKey).
Local Abbreviation autoRefresh_loop :=
  (autoRefresh_loop transport pem_Decode x509_ParsePKIXPublicKey).
Local Abbreviation NewRemotePublicKey :=
  (NewRemotePublicKey transport pem_Decode x509_ParsePKIXPublicKey).
Local Abbreviation step := (step transport pem_Decode x509_ParsePKIXPublicKey).
Local Abbreviation run := (run transport pem_Decode x509_ParsePKIXPublicKey).
Local Abbreviation fetch := (Spec.fetch pem_Decode x509_ParsePKIXPublicKey).
Local Abbreviation answer := (Spec.answer transport).
Local Abbreviation outcomes :=
  (Spec.outcomes transport pem_Decode x509_ParsePKIXPublicKey).
Local Abbreviation VerifyToken :=
  (Middleware.VerifyToken transport pem_Decode x509_ParsePKIXPublicKey).

(** What a successful constructor returns. *)
Lemma constructed u every w r w' :
  NewRemotePublicKey u every w = (Some r, None, w') →
  ∃ k, fetch (answer u w) = inr k ∧
       r = mkRemote u (Some k) (now w) every RWMutex.zero ∧ w' = Spec.asked u w.
Proof.
  rewrite NewRemotePublicKey_fetch.
  destruct (fetch _) as [[kind e]|k]; [done|].
  intros [= <- <-]. by exists k.
Qed.

(** C1.  Stale but valid: once [NewRemotePublicKey] has succeeded the
    cache holds a key ever after, through every run of the refresh loop
    and in every state the interleaved system reaches; and a refresh
    that fails, at whichever step (the request, reading the body, the
    PEM block, parsing the key, the key's type), returns with the cache
    as it found it, key and [lastUpdated] included. *)
Theorem stale_but_valid u every w r w' :
  NewRemotePublicKey u every w = (Some r, None, w') →
  (∀ waits, is_Some (publicKey (autoRefresh_loop waits r w').1)) ∧
  (∀ sched s, run sched (boot r w') = Some s → is_Some (publicKey (cache s))) ∧
  (∀ r1 w1 r2 err w2, refresh r1 w1 = (r2, Some err, w2) →
     publicKey r2 = publicKey r1 ∧ lastUpdated r2 = lastUpdated r1) ∧
  (∀ r1 w1 kind err, fetch (answer (url r1) w1) = inl (kind, err) →
     refresh r1 w1 = (r1, Some err, Spec.asked (url r1) w1)).
Proof.
  intros Hnew. destruct (constructed _ _ _ _ _ Hnew) as (k & Hk & -> & ->).
  split; [|split; [|split]].
  - intros waits. by apply autoRefresh_loop_keeps_key.
  - intros sched s Hrun.
    set (r0 := mkRemote u (Some k) (now w) every RWMutex.zero) in *.
    assert (Threads.invariant transport pem_Decode x509_ParsePKIXPublicKey
              r0 (Spec.asked u w) k s) as Hinv.
    { eapply run_invariant; [|exact Hrun]. by apply invariant_boot. }
    rewrite (inv_key _ _ _ _ _ _ _ Hinv). by eexists.
  - intros r1 w1 r2 err w2 Hr. by rewrite (refresh_failed _ _ _ _ _ _ _ _ Hr).
  - intros r1 w1 kind err Hf. by rewrite refresh_fetch, Hf.
Qed.

(** C3.  Fail-fast construction: [NewRemotePublicKey] returns an error
    and no cache exactly when the first fetch fails, and the error is
    the one of the failing step: of the request or of reading the body
    ([FetchError]), "invalid PEM" or the parser's ([FormatError]), "not
    RSA public key" ([KeyTypeError]); otherwise it returns the cache
    holding the fetched key and no error.  [VerifyToken] panics with
    that error in its message, so no handler comes to exist. *)
Theorem fail_fast_construction u every w :
  match fetch (answer u w) with
  | inl (kind, err) => NewRemotePublicKey u every w = (None, Some err, Spec.asked u w)
  | inr k =>
    NewRemotePublicKey u every w
    = (Some (mkRemote u (Some k) (now w) every RWMutex.zero), None, Spec.asked u w)
  end ∧
  ((NewRemotePublicKey u every w).1.1 = None ↔
   (NewRemotePublicKey u every w).1.2 ≠ None) ∧
  ((NewRemotePublicKey u every w).1.2 ≠ None ↔
   ∃ kind err, fetch (answer u w) = inl (kind, err)) ∧
  (∀ w0 w1 err,
     Utils.GetEnv "PUBLIC_KEY_URL" (Utils.LoadEnv w0) = (u, w1) → u ≠ "" →
     (Crypto.NewRemotePublicKey transport pem_Decode x509_ParsePKIXPublicKey
        u (5 * time_Minute) w1).1.2 = Some err →
     (VerifyToken w0).1
     = Panicked ("[go-middle] failed loading remote public key: " ++ Error err)).
Proof.
  rewrite NewRemotePublicKey_fetch.
  destruct (fetch (answer u w)) as [[kind e]|k] eqn:Hf; cbn.
  - repeat split; try done.
    + intros _. by exists kind, e.
    + intros w0 w1 err Henv Hu Herr. unfold Middleware.VerifyToken.
      rewrite Henv, decide_False by done.
      destruct (Crypto.NewRemotePublicKey _ _ _ _ _ _) as [[r1 e1] w2].
      cbn in Herr. by subst e1.
  - repeat split; try done.
    + by intros (kind & e & ?).
    + intros w0 w1 err Henv Hu Herr. unfold Middleware.VerifyToken.
      rewrite Henv, decide_False by done.
      destruct (Crypto.NewRemotePublicKey _ _ _ _ _ _) as [[r1 e1] w2].
      cbn in Herr. by subst e1.
Qed.

(** C6.  [Get] returns the key most recently stored by a successful
    fetch: right after construction the key of the first fetch, and
    after any run of the refresh loop the key of the last fetch that
    succeeded.  It does no network I/O and triggers no fetch: run alone
    it returns that key and leaves the cache as it was, and no step of
    a call of [Get] in the interleaved system changes the requests
    made, the clock, the refresher or the stored key and time. *)
Theorem Get_semantics u every w r w' :
  NewRemotePublicKey u every w = (Some r, None, w') →
  (∃ k, fetch (answer u w) = inr k ∧ Get r = Some k ∧
        ∀ waits, Get (autoRefresh_loop waits r w').1
                 = Some (Spec.latest k (outcomes u w' (length waits)))) ∧
  (∀ waits, let r' := (autoRefresh_loop waits r w').1 in
            get_steps 3 at_RLock r' = Some (Get r', r')) ∧
  (∀ i s s', step (Caller i) s = Some s' →
     world s' = world s ∧ refresher s' = refresher s ∧
     publicKey (cache s') = publicKey (cache s) ∧
     lastUpdated (cache s') = lastUpdated (cache s)).
Proof.
  intros Hnew. destruct (constructed _ _ _ _ _ Hnew) as (k & Hk & -> & ->).
  split; [|split].
  - exists k. split; [done|]. split; [done|].
    intros waits. by rewrite (autoRefresh_loop_latest _ _ _ waits _ _ k).
  - intros waits r'. subst r'. apply get_steps_agree.
    pose proof (autoRefresh_loop_frame transport pem_Decode x509_ParsePKIXPublicKey
                  waits (mkRemote u (Some k) (now w) every RWMutex.zero)
                  (Spec.asked u w)) as Hframe.
    cbn zeta in Hframe. by destruct Hframe as (_ & _ & ->).
  - intros i s s' Hstep. cbn in Hstep.
    destruct (callers s !! i) as [pc|] eqn:Hi; [|done]. cbn in Hstep.
    destruct pc; cbn in Hstep; try done.
    + destruct (RWMutex.RLock _); [|done]. by injection Hstep as <-.
    + by injection Hstep as <-.
    + destruct (RWMutex.RUnlock _); [|done]. by injection Hstep as <-.
Qed.

End CacheClaims.

Section ConcurrencyClaims.

Import Crypto Threads.

Variable transport : nat -> string -> error + Response.
Variable pem_Decode : bytes -> option (pem_Block * bytes).
Variable x509_ParsePKIXPublicKey : bytes -> error + PKIXPublicKey.

Local Abbreviation autoRefresh_loop :=
  (autoRefresh_loop transport pem_Decode x509_ParsePKIXPublicKey).
Local Abbreviation run := (run transport pem_Decode x509_ParsePKIXPublicKey).

(** C8.  Race-free key access, for the interleaved system started from
    a cache that holds a key and whose mutex is free.  In every state
    it reaches: the write lock is held exactly while the refresher is
    between [Lock] and [Unlock], so not while its next statement is the
    request or the reading of the body; no call of [Get] is between
    [RLock] and [RUnlock] while the write lock is held, so the read of
    [publicKey] is never enabled together with a write of [publicKey]
    or [lastUpdated]; and every value a call of [Get] has read is the
    key single-threaded code holds after some number of the refreshes
    started so far. *)
Theorem race_free_key_access r0 w0 k0 sched s :
  mu r0 = RWMutex.zero → publicKey r0 = Some k0 →
  run sched (boot r0 w0) = Some s →
  RWMutex.writer (mu (cache s)) = holds_write (refresher s) ∧
  (on_network (refresher s) = true → RWMutex.writer (mu (cache s)) = false) ∧
  (∀ i pc, callers s !! i = Some pc → holds_read pc = true →
     holds_write (refresher s) = false) ∧
  (∀ i pc, callers s !! i = Some pc → reads_shared pc = true →
     writes_shared (refresher s) = false) ∧
  (∀ i pc v, callers s !! i = Some pc → value_read pc = Some v →
     ∃ n, (n ≤ started w0 s)%nat ∧
          v = Get (autoRefresh_loop (replicate n 0) r0 w0).1).
Proof.
  intros Hmu Hk Hrun.
  assert (Threads.invariant transport pem_Decode x509_ParsePKIXPublicKey r0 w0 k0 s)
    as [Hurl Hmus Hexcl Hreq Hkey Hflight Hread].
  { eapply run_invariant; [|exact Hrun]. by apply invariant_boot. }
  assert (∀ i pc, callers s !! i = Some pc → holds_read pc = true →
            holds_write (refresher s) = false) as Hmutex.
  { intros i pc Hi Hpc. destruct (holds_write (refresher s)) eqn:Hw; [|done].
    pose proof (readers_in_pos _ _ _ Hi Hpc). specialize (Hexcl eq_refl). lia. }
  split; [by rewrite Hmus|]. split; [|split; [done|split]].
  - intros Hnet. rewrite Hmus. cbn.
    destruct (refresher s) as [|[]]; done.
  - intros i pc Hi Hpc.
    assert (holds_read pc = true) as Hr by (by destruct pc).
    specialize (Hmutex i pc Hi Hr).
    destruct (refresher s) as [|[]]; done.
  - intros i pc v Hi Hv. destruct (Hread i pc v Hi Hv) as (n & Hn & ->).
    exists n. split; [done|].
    rewrite (autoRefresh_loop_latest _ _ _ _ _ _ k0 Hk), length_replicate. done.
Qed.

End ConcurrencyClaims.

Section VerifyClaims.

Import Crypto.

(** A header made of ["Bearer"], one space and a token without spaces
    is one that splits into the scheme and the token. *)
Lemma bearer_form (auth tokenStr : string) :
  auth = "Bearer " ++ tokenStr ∧ spaceless tokenStr = true ↔
  strings_Split auth " " = ["Bearer"; tokenStr].
Proof.
  rewrite split_two. change ("Bearer " ++ tokenStr) with ("Bearer" ++ " " ++ tokenStr).
  split; [by intros [-> ?]|by intros (-> & _ & ?)].
Qed.

(** C5.  Missing token: on an empty [Authorization] value the handler
    rejects with "missing authorization header"; whatever the parser,
    the cache, the time and the rest of the chain are, the outcome is
    that one, so neither a token nor the cache had a say in it. *)
Theorem missing_token (jwt_Parse jwt_Parse' : Parser) r r' now now' next next' c :
  GetHeader c "Authorization" = "" →
  Middleware.handler jwt_Parse r now next c
  = Returned (Spec.rejection Spec.MissingToken c) ∧
  Middleware.handler jwt_Parse' r' now' next' c
  = Middleware.handler jwt_Parse r now next c ∧
  Spec.message Spec.MissingToken = "missing authorization header".
Proof.
  intros Hauth. by rewrite !handler_missing.
Qed.

(** C4.  Header shape: a non-empty [Authorization] value is split on
    the space; unless that gives exactly two parts of which the first
    is ["Bearer"], the handler rejects with "invalid authorization
    format"; when it does, the handler goes on to the token and ends
    in the invalid-token rejection, in the rest of the chain, or in a
    panic.  ["Token abc"] is rejected as malformed. *)
Theorem header_shape_check (jwt_Parse : Parser) r now next c :
  let auth := GetHeader c "Authorization" in
  let parts := strings_Split auth " " in
  auth ≠ "" →
  (¬ (length parts = 2%nat ∧ parts !! 0%nat = Some "Bearer") →
   Middleware.handler jwt_Parse r now next c
   = Returned (Spec.rejection Spec.MalformedHeader c)) ∧
  (length parts = 2%nat ∧ parts !! 0%nat = Some "Bearer" →
   Middleware.handler jwt_Parse r now next c
   = Returned (Spec.rejection Spec.InvalidToken c) ∨
   (∃ claims, Middleware.handler jwt_Parse r now next c
              = Returned (next (Set_ "claims" (any_MapClaims claims) c))) ∨
   (∃ msg, Middleware.handler jwt_Parse r now next c = Panicked msg)) ∧
  (auth = "Token abc" →
   Middleware.handler jwt_Parse r now next c
   = Returned (Spec.rejection Spec.MalformedHeader c)) ∧
  Spec.message Spec.MalformedHeader = "invalid authorization format".
Proof.
  intros auth parts Hauth. subst auth parts.
  split; [by apply handler_malformed|]. split; [|split; [|done]].
  - intros [Hlen Hscheme].
    destruct (strings_Split (GetHeader c "Authorization") " ")
      as [|p0 [|tokenStr [|]]] eqn:Hsplit; try done.
    cbn in Hscheme. injection Hscheme as ->.
    rewrite (handler_bearer jwt_Parse r now next c tokenStr Hsplit).
    destruct (jwt_Parse now tokenStr (Middleware.keyFunc r) []) as [[t|] [err|]];
      eauto.
    destruct (Valid t); [|by left].
    destruct (Claims_ t); eauto.
  - intros Heq. apply handler_malformed; [done|]. rewrite Heq. by intros [_ [=]].
Qed.

(** C2.  One failure for every bad token: on a header made of
    ["Bearer"], a space and a token, whenever the parser reports an error or
    hands out a token that is not valid the handler rejects with
    "invalid or expired token", the error itself playing no part.
    With the parser read by its stages: a token that does not parse,
    a signature that does not verify against the key of the cache, and
    claims that are not valid at the time of the call all end so.  The
    three rejections carry the same status, 401. *)
Theorem unified_invalid_token (jwt_Parse : Parser) r now next c tokenStr :
  GetHeader c "Authorization" = "Bearer " ++ tokenStr → spaceless tokenStr = true →
  (((jwt_Parse now tokenStr (Middleware.keyFunc r) []).2 ≠ None ∨
    ∃ token, (jwt_Parse now tokenStr (Middleware.keyFunc r) []).1 = Some token ∧
             Valid token = false) →
   Middleware.handler jwt_Parse r now next c
   = Returned (Spec.rejection Spec.InvalidToken c)) ∧
  (∀ ParseUnverified Verify Validate,
     match ParseUnverified tokenStr with
     | inl _ => True
     | inr (alg, header, claims, signature) =>
       Verify (mkToken tokenStr alg header (claims_Map claims) signature false) (Get r)
       ≠ None ∨
       Validate claims now ≠ None
     end →
     Middleware.handler (Jwt.Parse ParseUnverified Verify Validate) r now next c
     = Returned (Spec.rejection Spec.InvalidToken c)) ∧
  (∀ f, written (Spec.rejection f c) = Some (401, {[ "error" := Spec.message f ]}) ∧
        aborted (Spec.rejection f c) = true) ∧
  http_StatusUnauthorized = 401 ∧
  Spec.message Spec.InvalidToken = "invalid or expired token".
Proof.
  intros Hauth Hspaceless.
  assert (strings_Split (GetHeader c "Authorization") " " = ["Bearer"; tokenStr])
    as Hsplit by (by apply bearer_form).
  split; [|split; [|done]].
  - rewrite (handler_bearer jwt_Parse r now next c tokenStr Hsplit).
    destruct (jwt_Parse now tokenStr (Middleware.keyFunc r) []) as [[t|] [err|]];
      cbn; intros [Herr|(token & Ht & Hv)]; try done.
    injection Ht as <-. by rewrite Hv.
  - intros ParseUnverified Verify Validate Hbad.
    rewrite (handler_bearer _ r now next c tokenStr Hsplit).
    unfold Jwt.Parse.
    destruct (ParseUnverified tokenStr)
      as [[token err]|[[[alg header] claims] signature]]; [by destruct token|].
    cbn.
    destruct (Verify _ (Get r)) as [e|]; [done|].
    destruct (Validate claims now) as [e|]; [done|].
    by destruct Hbad.
Qed.

(** With the parser read by its stages, a token that passes them all
    gets its claims through. *)
Lemma staged_success ParseUnverified Verify Validate r now next c tokenStr
    alg header claims signature :
  strings_Split (GetHeader c "Authorization") " " = ["Bearer"; tokenStr] →
  ParseUnverified tokenStr = inr (alg, header, claims, signature) →
  Verify (mkToken tokenStr alg header (claims_Map claims) signature false) (Get r)
  = None →
  Validate claims now = None →
  Middleware.handler (Jwt.Parse ParseUnverified Verify Validate) r now next c
  = Returned (next (Set_ "claims" (any_MapClaims claims) c)).
Proof.
  intros Hsplit Hp Hv Hc.
  rewrite (handler_bearer _ r now next c tokenStr Hsplit).
  unfold Jwt.Parse. rewrite Hp. cbn. by rewrite Hv, Hc.
Qed.

(** C7.  Success: on a header made of ["Bearer"], a space and a token
    for which the parser hands out, with no error, a valid token with
    [MapClaims], the handler stores exactly those claims under
    ["claims"] and runs the rest of the chain on the context, which it
    changes in no other way.  With the parser read by its stages: a
    token that parses, whose signature verifies against the key of the
    cache and whose claims are valid now, gets its decoded claims
    through. *)
Theorem success_path (jwt_Parse : Parser) r now next c tokenStr :
  GetHeader c "Authorization" = "Bearer " ++ tokenStr → spaceless tokenStr = true →
  (∀ token claims,
     jwt_Parse now tokenStr (Middleware.keyFunc r) [] = (Some token, None) →
     Valid token = true → Claims_ token = claims_Map claims →
     Middleware.handler jwt_Parse r now next c
     = Returned (next (Set_ "claims" (any_MapClaims claims) c))) ∧
  (∀ ParseUnverified Verify Validate alg header claims signature,
     ParseUnverified tokenStr = inr (alg, header, claims, signature) →
     Verify (mkToken tokenStr alg header (claims_Map claims) signature false) (Get r)
     = None →
     Validate claims now = None →
     Middleware.handler (Jwt.Parse ParseUnverified Verify Validate) r now next c
     = Returned (next (Set_ "claims" (any_MapClaims claims) c))) ∧
  (∀ claims,
     let c' := Set_ "claims" (any_MapClaims claims) c in
     Keys c' !! "claims" = Some (any_MapClaims claims) ∧
     (∀ key, key ≠ "claims" → Keys c' !! key = Keys c !! key) ∧
     aborted c' = aborted c ∧ written c' = written c ∧
     Request_Header c' = Request_Header c).
Proof.
  intros Hauth Hspaceless.
  assert (strings_Split (GetHeader c "Authorization") " " = ["Bearer"; tokenStr])
    as Hsplit by (by apply bearer_form).
  split; [|split].
  - intros token claims Hparse Hvalid Hclaims.
    rewrite (handler_bearer jwt_Parse r now next c tokenStr Hsplit).
    by rewrite Hparse, Hvalid, Hclaims.
  - intros ParseUnverified Verify Validate alg header claims signature Hp Hv Hc.
    by eapply staged_success.
  - intros claims c'. subst c'. cbn. split; [by rewrite lookup_insert_eq|].
    split; [|done]. intros key Hkey. by rewrite lookup_insert_ne.
Qed.

(** C10.  No allow-list of algorithms: the key callback returns the
    key of the cache and a nil error on every token, whatever method
    its header names; the handler calls the parser with no option, so
    two parsers that agree when given no option are the same to it;
    and with the parser read by its stages a token of any method gets
    through once the library's signature check accepts it under that
    key and its claims are valid. *)
Theorem no_algorithm_allow_list r :
  (∀ t, Middleware.keyFunc r t = (Get r, None)) ∧
  (∀ t alg, Middleware.keyFunc r (mkToken (Raw t) alg (Header t) (Claims_ t)
                                        (Signature t) (Valid t))
            = Middleware.keyFunc r t) ∧
  (∀ (jwt_Parse jwt_Parse' : Parser) now next c,
     (∀ tokenString keyFunc,
        jwt_Parse now tokenString keyFunc [] = jwt_Parse' now tokenString keyFunc []) →
     Middleware.handler jwt_Parse r now next c
     = Middleware.handler jwt_Parse' r now next c) ∧
  (∀ alg, Jwt.method_allowed [] alg = true) ∧
  (∀ ParseUnverified Verify Validate now next c tokenStr alg header claims signature,
     GetHeader c "Authorization" = "Bearer " ++ tokenStr → spaceless tokenStr = true →
     ParseUnverified tokenStr = inr (alg, header, claims, signature) →
     Verify (mkToken tokenStr alg header (claims_Map claims) signature false) (Get r)
     = None →
     Validate claims now = None →
     Middleware.handler (Jwt.Parse ParseUnverified Verify Validate) r now next c
     = Returned (next (Set_ "claims" (any_MapClaims claims) c))).
Proof.
  split; [done|]. split; [done|]. split; [|split; [done|]].
  - intros jwt_Parse jwt_Parse' now next c Hagree.
    unfold Middleware.handler. case_decide; [done|].
    destruct (if decide _ then _ else _) as [[]|]; try done. cbn.
    destruct (index _ 1) as [tokenStr|]; [|done]. cbn.
    by rewrite Hagree.
  - intros ParseUnverified Verify Validate now next c tokenStr alg header claims
      signature Hauth Hspaceless Hp Hv Hc.
    eapply staged_success; [by apply bearer_form|done..].
Qed.

End VerifyClaims.

(** * The claims on the concrete environment *)

Section Instances.

Import Crypto Threads Demo.

Local Abbreviation refresh :=
  (Crypto.refresh transport pem_Decode x509_ParsePKIXPublicKey).
Local Abbreviation autoRefresh_loop :=
  (Crypto.autoRefresh_loop transport pem_Decode x509_ParsePKIXPublicKey).
Local Abbreviation NewRemotePublicKey :=
  (Crypto.NewRemotePublicKey transport pem_Decode x509_ParsePKIXPublicKey).
Local Abbreviation fetch := (Spec.fetch pem_Decode x509_ParsePKIXPublicKey).
Local Abbreviation answer := (Spec.answer transport).
Local Abbreviation outcomes :=
  (Spec.outcomes transport pem_Decode x509_ParsePKIXPublicKey).

Lemma constructed_in_world0 :
  NewRemotePublicKey key_url (5 * time_Minute) world0 = (Some cache1, None, world1).
Proof. vm_compute. reflexivity. Defined.

(** Construction succeeds in [world0]; six ticks later, five of them
    failed refreshes, the cache still holds a key, and the refused
    connection of the first tick left it untouched. *)
Lemma stale_but_valid_witness :
  NewRemotePublicKey key_url (5 * time_Minute) world0 = (Some cache1, None, world1) ∧
  is_Some (publicKey (autoRefresh_loop [300; 300; 300; 300; 300; 300] cache1 world1).1) ∧
  refresh cache1 world1
  = (cache1,
     Some (errors_New "dial tcp 127.0.0.1:3000: connect: connection refused"),
     Spec.asked key_url world1).
Proof.
  destruct (stale_but_valid transport pem_Decode x509_ParsePKIXPublicKey
              key_url (5 * time_Minute) world0 cache1 world1 constructed_in_world0)
    as (Hloop & Hsys & Hfail & Hsteps).
  split; [exact constructed_in_world0|]. split; [apply Hloop|].
  apply (Hsteps cache1 world1 Spec.FetchError). vm_compute. reflexivity.
Defined.

(** In [world1] the key server refuses the connection: no cache, the
    error of the request, and [VerifyToken] panics with it. *)
Lemma fail_fast_construction_witness :
  NewRemotePublicKey key_url (5 * time_Minute) world1
  = (None,
     Some (errors_New "dial tcp 127.0.0.1:3000: connect: connection refused"),
     Spec.asked key_url world1) ∧
  (Middleware.VerifyToken transport pem_Decode x509_ParsePKIXPublicKey world1).1
  = Panicked "[go-middle] failed loading remote public key: dial tcp 127.0.0.1:3000: connect: connection refused".
Proof.
  destruct (fail_fast_construction transport pem_Decode x509_ParsePKIXPublicKey
              key_url (5 * time_Minute) world1) as (Hret & _ & _ & Hpanic).
  split; [exact Hret|].
  apply (Hpanic world1
           (Utils.log_Println "[go-middle] .env not found, using system environment"
                              world1)
           (errors_New "dial tcp 127.0.0.1:3000: connect: connection refused")).
  - vm_compute. reflexivity.
  - discriminate.
  - vm_compute. reflexivity.
Defined.

(** After construction [Get] returns key 1; after the six ticks it
    returns the key of the one refresh that succeeded. *)
Lemma Get_semantics_witness :
  NewRemotePublicKey key_url (5 * time_Minute) world0 = (Some cache1, None, world1) ∧
  (∃ k, fetch (answer key_url world0) = inr k ∧ Get cache1 = Some k ∧
        ∀ waits, Get (autoRefresh_loop waits cache1 world1).1
                 = Some (Spec.latest k (outcomes key_url world1 (length waits)))) ∧
  Spec.latest key1 (outcomes key_url world1 6) = key2.
Proof.
  destruct (Get_semantics transport pem_Decode x509_ParsePKIXPublicKey
              key_url (5 * time_Minute) world0 cache1 world1 constructed_in_world0)
    as (Hget & Hsolo & Hsteps).
  split; [exact constructed_in_world0|]. split; [exact Hget|].
  vm_compute. reflexivity.
Defined.

Lemma raced_run :
  Crypto.run transport pem_Decode x509_ParsePKIXPublicKey race_schedule
             (boot cache1 world1)
  = Some raced.
Proof. vm_compute. reflexivity. Defined.

(** The call of [Get] that raced with the refresh read key 1, the one
    after it key 2: each the key of single-threaded code after some
    of the two refreshes started. *)
Lemma race_free_key_access_witness :
  mu cache1 = RWMutex.zero ∧ publicKey cache1 = Some key1 ∧
  Crypto.run transport pem_Decode x509_ParsePKIXPublicKey race_schedule
             (boot cache1 world1) = Some raced ∧
  (∃ n, (n ≤ 2)%nat ∧ Some key1 = Get (autoRefresh_loop (replicate n 0) cache1 world1).1) ∧
  (∃ n, (n ≤ 2)%nat ∧ Some key2 = Get (autoRefresh_loop (replicate n 0) cache1 world1).1).
Proof.
  destruct (race_free_key_access transport pem_Decode x509_ParsePKIXPublicKey
              cache1 world1 key1 race_schedule _ eq_refl eq_refl raced_run)
    as (Hlock & Hnet & Hexcl & Hrace & Hread).
  split; [reflexivity|]. split; [reflexivity|]. split; [exact raced_run|]. split.
  - exact (Hread 0%nat (got (Some key1)) (Some key1) eq_refl eq_refl).
  - exact (Hread 1%nat (got (Some key2)) (Some key2) eq_refl eq_refl).
Defined.

Lemma missing_token_witness :
  GetHeader (request "") "Authorization" = "" ∧
  handler cache1 1500 id (request "")
  = Returned (Spec.rejection Spec.MissingToken (request "")).
Proof.
  assert (GetHeader (request "") "Authorization" = "") as Hauth
    by (vm_compute; reflexivity).
  split; [exact Hauth|].
  exact (proj1 (missing_token jwt_Parse jwt_Parse cache1 cache1 1500 1500 id id
                              (request "") Hauth)).
Defined.

Lemma header_shape_check_witness :
  GetHeader (request "Token abc") "Authorization" ≠ "" ∧
  handler cache1 1500 id (request "Token abc")
  = Returned (Spec.rejection Spec.MalformedHeader (request "Token abc")).
Proof.
  assert (GetHeader (request "Token abc") "Authorization" ≠ "") as Hauth
    by (vm_compute; discriminate).
  split; [exact Hauth|].
  destruct (header_shape_check jwt_Parse cache1 1500 id (request "Token abc") Hauth)
    as (_ & _ & Htoken & _).
  apply Htoken. vm_compute. reflexivity.
Defined.

(** An expired token signed by the key of the cache, a token signed by
    another key and a token that does not parse: one rejection. *)
Lemma unified_invalid_token_witness :
  GetHeader (request "Bearer expired1") "Authorization" = "Bearer " ++ "expired1" ∧
  spaceless "expired1" = true ∧
  handler cache1 1500 id (request "Bearer expired1")
  = Returned (Spec.rejection Spec.InvalidToken (request "Bearer expired1")) ∧
  handler cache1 1500 id (request "Bearer signed2")
  = Returned (Spec.rejection Spec.InvalidToken (request "Bearer signed2")) ∧
  handler cache1 1500 id (request "Bearer a.b")
  = Returned (Spec.rejection Spec.InvalidToken (request "Bearer a.b")).
Proof.
  split; [vm_compute; reflexivity|]. split; [vm_compute; reflexivity|].
  split; [|split].
  - destruct (unified_invalid_token jwt_Parse cache1 1500 id
                (request "Bearer expired1") "expired1" eq_refl eq_refl)
      as (_ & Hstaged & _).
    apply (Hstaged ParseUnverified Verify Validate).
    vm_compute. right. discriminate.
  - destruct (unified_invalid_token jwt_Parse cache1 1500 id
                (request "Bearer signed2") "signed2" eq_refl eq_refl)
      as (_ & Hstaged & _).
    apply (Hstaged ParseUnverified Verify Validate).
    vm_compute. left. discriminate.
  - destruct (unified_invalid_token jwt_Parse cache1 1500 id
                (request "Bearer a.b") "a.b" eq_refl eq_refl)
      as (_ & Hstaged & _).
    apply (Hstaged ParseUnverified Verify Validate).
    vm_compute. exact I.
Defined.

Lemma success_path_witness :
  GetHeader (request "Bearer signed1") "Authorization" = "Bearer " ++ "signed1" ∧
  spaceless "signed1" = true ∧
  handler cache1 1500 id (request "Bearer signed1")
  = Returned (Set_ "claims" (any_MapClaims alice) (request "Bearer signed1")).
Proof.
  split; [vm_compute; reflexivity|]. split; [vm_compute; reflexivity|].
  destruct (success_path jwt_Parse cache1 1500 id (request "Bearer signed1")
              "signed1" eq_refl eq_refl) as (_ & Hstaged & _).
  apply (Hstaged ParseUnverified Verify Validate "RS256" ∅ alice [Byte.x01]);
    vm_compute; reflexivity.
Defined.

(** A token whose header names PS512 gets through under the RSA key of
    the cache. *)
Lemma no_algorithm_allow_list_witness :
  handler cache1 1500 id (request "Bearer pss1")
  = Returned (Set_ "claims" (any_MapClaims alice) (request "Bearer pss1")).
Proof.
  destruct (no_algorithm_allow_list cache1) as (_ & _ & _ & _ & Hany).
  apply (Hany ParseUnverified Verify Validate 1500 id (request "Bearer pss1")
              "pss1" "PS512" ∅ alice [Byte.x01]);
    vm_compute; reflexivity.
Defined.

End Instances.

(** * Further properties of the code *)

(** ** utils/env.go and the start of VerifyToken *)

Section StartupFacts.

Import Crypto.

Variable transport : nat -> string -> error + Response.
Variable pem_Decode : bytes -> option (pem_Block * bytes).
Variable x509_ParsePKIXPublicKey : bytes -> error + PKIXPublicKey.

Local Abbreviation NewRemotePublicKey :=
  (NewRemotePublicKey transport pem_Decode x509_ParsePKIXPublicKey).
Local Abbreviation autoRefresh :=
  (autoRefresh transport pem_Decode x509_ParsePKIXPublicKey).
Local Abbreviation VerifyToken :=
  (Middleware.VerifyToken transport pem_Decode x509_ParsePKIXPublicKey).
Local Abbreviation fetch := (Spec.fetch pem_Decode x509_ParsePKIXPublicKey).
Local Abbreviation answer := (Spec.answer transport).

Lemma LoadEnv_lookup key w :
  Utils.os_Getenv key (Utils.LoadEnv w) = More.configured key w.
Proof.
  unfold Utils.LoadEnv, Utils.godotenv_Load, Utils.os_Getenv, More.configured.
  destruct (dotenv w) as [file|]; cbn.
  - rewrite lookup_union. by destruct (environ w !! key), (file !! key).
  - by destruct (environ w !! key).
Qed.

Lemma LoadEnv_frame w :
  requests (Utils.LoadEnv w) = requests w ∧ now (Utils.LoadEnv w) = now w ∧
  dotenv (Utils.LoadEnv w) = dotenv w ∧
  logged (Utils.LoadEnv w)
  = (logged w ++ match dotenv w with
                  | Some _ => []
                  | None => ["[go-middle] .env not found, using system environment"]
                  end)%list.
Proof.
  unfold Utils.LoadEnv, Utils.godotenv_Load.
  destruct (dotenv w) as [file|] eqn:Hdot; cbn; by rewrite ?app_nil_r.
Qed.

(** X1.  [GetEnv] after [LoadEnv]: the process environment wins over [.env],
    a file that cannot be read is the same as an empty one but for one
    line of log, and an unset or empty variable costs a warning that
    names it; nothing else of the world changes. *)
Theorem GetEnv_after_LoadEnv key w :
  let result := Utils.GetEnv key (Utils.LoadEnv w) in
  result.1 = More.configured key w ∧
  requests result.2 = requests w ∧ now result.2 = now w ∧
  environ result.2 = environ (Utils.LoadEnv w) ∧
  (∀ k v, environ w !! k = Some v → environ result.2 !! k = Some v) ∧
  logged result.2
  = (logged w
     ++ match dotenv w with
        | Some _ => []
        | None => ["[go-middle] .env not found, using system environment"]
        end
     ++ (if decide (More.configured key w = "")
         then ["[go-middle] WARNING: env " +:+ key +:+ " not set"] else []))%list.
Proof.
  intros result. subst result. unfold Utils.GetEnv.
  rewrite LoadEnv_lookup.
  destruct (LoadEnv_frame w) as (Hreq & Hnow & Hdot & Hlog).
  assert (∀ k v, environ w !! k = Some v → environ (Utils.LoadEnv w) !! k = Some v)
    as Hkeep.
  { intros k v Hk. unfold Utils.LoadEnv, Utils.godotenv_Load.
    destruct (dotenv w) as [file|]; cbn; [|done].
    by apply lookup_union_Some_l. }
  case_decide; cbn; rewrite ?Hlog, ?app_nil_r, <- ?app_assoc; done.
Qed.

(** X2.  Without a [PUBLIC_KEY_URL], in the environment or in [.env],
    [VerifyToken] panics before any request is made. *)
Theorem VerifyToken_requires_url w :
  More.configured "PUBLIC_KEY_URL" w = "" →
  (VerifyToken w).1 = Panicked "[go-middle] PUBLIC_KEY_URL is required in .env" ∧
  requests (VerifyToken w).2 = requests w ∧
  last (logged (VerifyToken w).2)
  = Some "[go-middle] WARNING: env PUBLIC_KEY_URL not set".
Proof.
  intros Hurl. unfold Middleware.VerifyToken, Utils.GetEnv.
  rewrite LoadEnv_lookup, Hurl.
  rewrite !(decide_True (P := "" = "")) by done.
  destruct (LoadEnv_frame w) as (Hreq & _). cbn.
  split; [done|]. split; [done|]. by rewrite last_snoc.
Qed.


(** X4.  The constructor does not look at the interval: it succeeds for
    every interval once it succeeds for one, and with an interval that
    is not positive the goroutine it starts panics when it creates its
    ticker instead of refreshing. *)
Theorem interval_unchecked u every w r w' :
  NewRemotePublicKey u every w = (Some r, None, w') →
  (∀ every', ∃ r', NewRemotePublicKey u every' w = (Some r', None, w') ∧
                   Get r' = Get r ∧ refreshEvery r' = every') ∧
  (∀ waits, autoRefresh waits r w' = None ↔ (every ≤ 0)%Z).
Proof.
  rewrite !NewRemotePublicKey_fetch.
  destruct (fetch _) as [[kind e]|k] eqn:Hf; [done|]. intros [= <- <-].
  split.
  - intros every'. eexists. rewrite NewRemotePublicKey_fetch, Hf. done.
  - intros waits. unfold Crypto.autoRefresh. cbn. case_decide; split; try done; lia.
Qed.

End StartupFacts.

(** ** More on refresh and the refresh loop *)

Section RefreshFacts.

Import Crypto.

Variable x509_ParsePKIXPublicKey : bytes -> error + PKIXPublicKey.

(** X5.  [refresh] sees of the answer only the error, or the bytes of the
    first PEM block: two networks and two PEM decoders that agree on
    those give the same refresh, whatever the status codes, the types
    and headers of the blocks and the bytes after them. *)
Theorem refresh_reads_der_only
    (transport transport' : nat -> string -> error + Response)
    (pem_Decode pem_Decode' : bytes -> option (pem_Block * bytes)) r w :
  More.der_of pem_Decode (transport (length (requests w)) (url r))
  = More.der_of pem_Decode' (transport' (length (requests w)) (url r)) →
  refresh transport pem_Decode x509_ParsePKIXPublicKey r w
  = refresh transport' pem_Decode' x509_ParsePKIXPublicKey r w.
Proof.
  intros Hder. rewrite !refresh_fetch. unfold Spec.answer, Spec.fetch.
  unfold More.der_of in Hder.
  destruct (transport _ _) as [e|resp], (transport' _ _) as [e'|resp'];
    try (destruct (Body resp)); try (destruct (Body resp')); simplify_eq; try done.
  destruct (pem_Decode _) as [[block rest]|], (pem_Decode' _) as [[block' rest']|];
    cbn in Hder; try done.
  injection Hder as Hder. by rewrite Hder.
Qed.

End RefreshFacts.

Section LoopFacts.

Import Crypto.

Variable transport : nat -> string -> error + Response.
Variable pem_Decode : bytes -> option (pem_Block * bytes).
Variable x509_ParsePKIXPublicKey : bytes -> error + PKIXPublicKey.
Variable jwt_Parse : Parser.

Local Abbreviation refresh := (refresh transport pem_Decode x509_ParsePKIXPublicKey).
Local Abbreviation autoRefresh_loop :=
  (autoRefresh_loop transport pem_Decode x509_ParsePKIXPublicKey).
Local Abbreviation outcomes :=
  (Spec.outcomes transport pem_Decode x509_ParsePKIXPublicKey).

Lemma refresh_lastUpdated r w :
  lastUpdated (refresh r w).1.1 = lastUpdated r ∨
  lastUpdated (refresh r w).1.1 = now w.
Proof.
  rewrite refresh_fetch. destruct (Spec.fetch _ _ _) as [[kind e]|k]; auto.
Qed.

(** X6.  The loop keeps no count of failures: every tick is exactly one
    call of [http.Get], with the URL of the cache, whether earlier
    calls failed or not, and the clock is the only other thing of the
    world that moves; the URL, the interval and the mutex of the cache
    stay, and with waits that are not negative [lastUpdated] is never
    ahead of the clock.  The count is of calls of [http.Get]: what
    net/http sends for one call is not part of [requests]. *)
Theorem autoRefresh_loop_accounting waits : ∀ r w,
  let result := autoRefresh_loop waits r w in
  requests result.2 = (requests w ++ replicate (length waits) (url r))%list ∧
  now result.2 = now w + More.elapsed waits ∧
  environ result.2 = environ w ∧ dotenv result.2 = dotenv w ∧
  logged result.2 = logged w ∧
  url result.1 = url r ∧ refreshEvery result.1 = refreshEvery r ∧
  mu result.1 = mu r ∧
  (Forall (λ d, 0 ≤ d)%Z waits → (lastUpdated r ≤ now w)%Z →
   (lastUpdated result.1 ≤ now result.2)%Z).
Proof.
  induction waits as [|d waits IH]; intros r w; cbn zeta.
  { cbn. rewrite app_nil_r, Z.add_0_r. repeat split; done. }
  cbn [Crypto.autoRefresh_loop length replicate More.elapsed foldr].
  pose proof (refresh_world transport pem_Decode x509_ParsePKIXPublicKey
                r (with_now w (now w + d))) as Hw.
  pose proof (refresh_frame transport pem_Decode x509_ParsePKIXPublicKey
                r (with_now w (now w + d))) as (Hu & He & Hm).
  pose proof (refresh_lastUpdated r (with_now w (now w + d))) as Hl.
  destruct (refresh r (with_now w (now w + d))) as [[r1 e1] w1].
  cbn in Hw, Hu, He, Hm, Hl. subst w1.
  destruct (IH r1 (Spec.asked (url r) (with_now w (now w + d))))
    as (Hreq & Hnow & Henv & Hdot & Hlog & Hurl & Hevery & Hmu & Hlast).
  cbn zeta in *. cbn in Hreq, Hnow, Henv, Hdot, Hlog.
  rewrite Hreq, Hnow, Henv, Hdot, Hlog, Hurl, Hevery, Hmu, Hu, He, Hm.
  rewrite <- app_assoc. fold (More.elapsed waits).
  repeat split; try done; [lia|].
  intros Hwaits Hle. apply Forall_cons in Hwaits as [Hd Hwaits].
  rewrite <- Hnow. apply Hlast; [done|]. cbn. destruct Hl as [-> | ->]; lia.
Qed.

Lemma latest_same {F} k (os : list (F + rsa_PublicKey)) :
  Forall (λ o, Spec.key_of o = None ∨ Spec.key_of o = Some k) os →
  Spec.latest k os = k.
Proof.
  unfold Spec.latest. induction os as [|o os IH]; intros Hos; [done|].
  apply Forall_cons in Hos as [Ho Hos]. cbn.
  destruct o as [e|k']; cbn in Ho; [by apply IH|].
  destruct Ho as [|[= ->]]; [done|by apply IH].
Qed.

(** X9.  Refreshes that fail, or fetch the key the cache already holds,
    change no verdict: after any run of them the handler does on every
    request what it did before. *)
Theorem refreshes_keep_verdicts waits r w k now next c :
  publicKey r = Some k →
  Forall (λ o, Spec.key_of o = None ∨ Spec.key_of o = Some k)
         (outcomes (url r) w (length waits)) →
  Middleware.handler jwt_Parse (autoRefresh_loop waits r w).1 now next c
  = Middleware.handler jwt_Parse r now next c.
Proof.
  intros Hk Hos. apply handler_reads_key_only.
  rewrite (autoRefresh_loop_latest _ _ _ waits r w k Hk).
  rewrite latest_same by done. by unfold Get.
Qed.

End LoopFacts.

(** ** More on the handler *)

Section VerdictFacts.

Import Crypto.

Variable jwt_Parse : Parser.

Local Abbreviation handler := (Middleware.handler jwt_Parse).

(** X7.  The handler has three ways to end, and which one it takes does not
    depend on the rest of the chain: it rejects without running the
    chain, or runs it once on the context with the claims added, or
    panics. *)
Theorem handler_outcomes r now c :
  (∃ f, ∀ next, handler r now next c = Returned (Spec.rejection f c)) ∨
  (∃ claims, ∀ next,
     handler r now next c = Returned (next (Set_ "claims" (any_MapClaims claims) c))) ∨
  (∃ msg, ∀ next, handler r now next c = Panicked msg).
Proof.
  destruct (decide (GetHeader c "Authorization" = "")) as [Hauth|Hauth].
  { left. exists Spec.MissingToken. intros next. by apply handler_missing. }
  destruct (decide (length (strings_Split (GetHeader c "Authorization") " ") = 2%nat ∧
                    strings_Split (GetHeader c "Authorization") " " !! 0%nat
                    = Some "Bearer")) as [[Hlen Hscheme]|Hshape].
  2:{ left. exists Spec.MalformedHeader. intros next. by apply handler_malformed. }
  destruct (strings_Split (GetHeader c "Authorization") " ")
    as [|p0 [|tokenStr [|]]] eqn:Hsplit; try done.
  cbn in Hscheme. injection Hscheme as ->.
  pose proof (λ next, handler_bearer jwt_Parse r now next c tokenStr Hsplit) as Hb.
  destruct (jwt_Parse now tokenStr (Middleware.keyFunc r) []) as [[t|] [err|]].
  - left. by exists Spec.InvalidToken.
  - destruct (Valid t); [|left; by exists Spec.InvalidToken].
    destruct (Claims_ t) as [claims| |].
    + right. left. by exists claims.
    + right. right. by eexists.
    + right. right. by eexists.
  - left. by exists Spec.InvalidToken.
  - right. right. by eexists.
Qed.

(** X14.  Where the handler can panic.  It does so in just two cases,
    both after [jwt.Parse] has returned on a header of the form
    [Bearer], a space and a part without one: [jwt.Parse] handed back a
    nil token with a nil error, so that [token.Valid] dereferences nil,
    or a valid token whose claims are not [MapClaims], so that the type
    assertion fails.  Nothing before the call panics, the two slice
    indexings included, and an error from [jwt.Parse] never leads to a
    panic.  Nor does [VerifyToken] ever return a handler over a nil
    cache. *)
Theorem handler_panics_only r now next c :
  ((∃ msg, handler r now next c = Panicked msg) ↔
   ∃ tokenStr,
     strings_Split (GetHeader c "Authorization") " " = ["Bearer"; tokenStr] ∧
     (jwt_Parse now tokenStr (Middleware.keyFunc r) [] = (None, None) ∨
      ∃ token,
        jwt_Parse now tokenStr (Middleware.keyFunc r) [] = (Some token, None) ∧
        Valid token = true ∧ ∀ claims, Claims_ token ≠ claims_Map claims)) ∧
  (∀ transport pem_Decode x509_ParsePKIXPublicKey w,
     (Middleware.VerifyToken transport pem_Decode x509_ParsePKIXPublicKey w).1
     ≠ Returned None).
Proof.
  split.
  2:{ intros transport pem_Decode x509_ParsePKIXPublicKey w.
      unfold Middleware.VerifyToken.
      destruct (Utils.GetEnv _ _) as [u w1]. case_decide; [done|].
      rewrite NewRemotePublicKey_fetch.
      by destruct (Spec.fetch _ _ _) as [[kind e]|k]. }
  destruct (decide (GetHeader c "Authorization" = "")) as [Hauth|Hauth].
  { rewrite handler_missing by done. split; [by intros [msg Hmsg]|].
    intros (tokenStr & Hsplit & _). rewrite Hauth in Hsplit. by rewrite split_empty in Hsplit. }
  destruct (decide (length (strings_Split (GetHeader c "Authorization") " ") = 2%nat ∧
                    strings_Split (GetHeader c "Authorization") " " !! 0%nat
                    = Some "Bearer")) as [[Hlen Hscheme]|Hshape].
  2:{ rewrite handler_malformed by done. split; [by intros [msg Hmsg]|].
      intros (tokenStr & Hsplit & _). destruct Hshape. by rewrite Hsplit. }
  destruct (strings_Split (GetHeader c "Authorization") " ")
    as [|p0 [|tokenStr [|]]] eqn:Hsplit; try done.
  cbn in Hscheme. injection Hscheme as ->.
  rewrite (handler_bearer jwt_Parse r now next c tokenStr Hsplit).
  split.
  - intros [msg Hmsg]. exists tokenStr. split; [done|].
    destruct (jwt_Parse now tokenStr (Middleware.keyFunc r) []) as [[t|] [err|]];
      try done; [|by left].
    right. exists t. split; [done|].
    destruct (Valid t); [|done]. split; [done|].
    intros claims Hc. by rewrite Hc in Hmsg.
  - intros (tokenStr' & [= <-] & [Hparse|(t & Hparse & Hvalid & Hclaims)]);
      rewrite Hparse; [by eexists|].
    rewrite Hvalid. destruct (Claims_ t) as [claims| |]; [|by eexists..].
    by destruct (Hclaims claims).
Qed.

Lemma spaceless_app_space (x y : string) : spaceless (x ++ String " " y) = false.
Proof.
  induction x as [|a x IH]; [done|].
  rewrite append_cons. cbn [spaceless]. rewrite IH. by destruct (negb _).
Qed.

(** In a string with one space, what stands before a space is what
    stands before that one. *)
Lemma space_cut (s1 : string) : ∀ s2 t1 t2 : string,
  spaceless s1 = true → spaceless t1 = true →
  s1 ++ String " " t1 = s2 ++ String " " t2 → s1 = s2.
Proof.
  induction s1 as [|a s1 IH]; intros [|b s2] t1 t2 Hs Ht Heq; try done.
  - rewrite append_nil_l, append_cons in Heq. injection Heq as <- ->.
    by rewrite spaceless_app_space in Ht.
  - rewrite append_nil_l, append_cons in Heq. injection Heq as -> _.
    cbn in Hs. by rewrite bool_decide_eq_true_2 in Hs.
  - rewrite !append_cons in Heq. injection Heq as -> Heq.
    cbn in Hs. apply andb_true_iff in Hs as [_ Hs].
    f_equal. by eapply IH.
Qed.

(** X8.  The scheme is matched byte for byte and the space is exactly one:
    a header that is not ["Bearer"], one space and a part without
    spaces is rejected as malformed, whatever the parser would have
    said of it.  The part may be empty: then the empty token goes to
    the parser, and its failure is the invalid-token rejection. *)
Theorem bearer_only r now next c :
  let auth := GetHeader c "Authorization" in
  (auth ≠ "" →
   (∀ tokenStr, auth = "Bearer " ++ tokenStr → spaceless tokenStr = false) →
   handler r now next c = Returned (Spec.rejection Spec.MalformedHeader c)) ∧
  (∀ scheme tokenStr, auth = scheme ++ " " ++ tokenStr → scheme ≠ "Bearer" →
   handler r now next c = Returned (Spec.rejection Spec.MalformedHeader c)) ∧
  (auth = "Bearer " → (jwt_Parse now "" (Middleware.keyFunc r) []).2 ≠ None →
   handler r now next c = Returned (Spec.rejection Spec.InvalidToken c)).
Proof.
  intros auth. subst auth. split; [|split].
  - intros Hauth Hform. apply handler_malformed; [done|].
    intros [Hlen Hscheme].
    destruct (strings_Split (GetHeader c "Authorization") " ")
      as [|p0 [|tokenStr [|]]] eqn:Hsplit; try done.
    cbn in Hscheme. injection Hscheme as ->.
    apply bearer_form in Hsplit as [Heq Hsp].
    specialize (Hform tokenStr Heq). congruence.
  - intros scheme tokenStr Heq Hscheme.
    assert (GetHeader c "Authorization" ≠ "") as Hauth.
    { rewrite Heq. by destruct scheme. }
    apply handler_malformed; [done|].
    intros [Hlen Hfirst].
    destruct (strings_Split (GetHeader c "Authorization") " ")
      as [|p0 [|p1 [|]]] eqn:Hsplit; try done.
    cbn in Hfirst. injection Hfirst as ->.
    apply split_two in Hsplit as (Heq' & _ & Hp1).
    rewrite Heq in Heq'. destruct Hscheme. symmetry.
    by eapply (space_cut "Bearer" scheme p1 tokenStr).
  - intros Heq Herr.
    rewrite (handler_bearer jwt_Parse r now next c "");
      [|apply bearer_form; by rewrite Heq].
    destruct (jwt_Parse now "" (Middleware.keyFunc r) []) as [[t|] [err|]]; done.
Qed.

End VerdictFacts.

(** ** More on the interleaved system *)

Section LockFacts.

Import Crypto Threads.

Variable transport : nat -> string -> error + Response.
Variable pem_Decode : bytes -> option (pem_Block * bytes).
Variable x509_ParsePKIXPublicKey : bytes -> error + PKIXPublicKey.

Local Abbreviation step := (step transport pem_Decode x509_ParsePKIXPublicKey).
Local Abbreviation run := (run transport pem_Decode x509_ParsePKIXPublicKey).
Local Abbreviation invariant :=
  (invariant transport pem_Decode x509_ParsePKIXPublicKey).

Lemma reached r0 w0 k0 sched s :
  mu r0 = RWMutex.zero → publicKey r0 = Some k0 →
  run sched (boot r0 w0) = Some s → invariant r0 w0 k0 s.
Proof.
  intros Hmu Hk Hrun. eapply run_invariant; [|exact Hrun]. by apply invariant_boot.
Qed.

Lemma readers_in_none cs :
  Forall (λ pc, holds_read pc = false) cs → readers_in cs = 0%nat.
Proof.
  unfold readers_in. induction cs as [|pc cs IH]; intros Hcs; [done|].
  apply Forall_cons in Hcs as [Hpc Hcs]. rewrite filter_cons.
  case_decide; [congruence|by apply IH].
Qed.

Lemma readers_in_some cs :
  (0 < readers_in cs)%nat → ∃ i pc, cs !! i = Some pc ∧ holds_read pc = true.
Proof.
  unfold readers_in. intros Hpos.
  destruct (filter (λ pc, holds_read pc = true) cs) as [|pc l] eqn:Hf;
    [cbn in Hpos; lia|].
  assert (pc ∈ filter (λ pc, holds_read pc = true) cs) as Hin
    by (rewrite Hf; apply list_elem_of_here).
  apply list_elem_of_filter in Hin as [Hpc Hin].
  apply list_elem_of_lookup in Hin as [i Hi]. by exists i, pc.
Qed.

Lemma step_caller i s pc pc' r' :
  callers s !! i = Some pc → get_step pc (cache s) = Some (pc', r') →
  step (Caller i) s
  = Some (mkSystem r' (world s) (refresher s) (<[i := pc']> (callers s))).
Proof. intros Hi Hg. cbn -[Crypto.get_step]. rewrite Hi. cbn -[Crypto.get_step]. by rewrite Hg. Qed.

(** A call of [Get] that holds the read lock can always take its next
    step. *)
Lemma reader_steps r0 w0 k0 s i pc :
  invariant r0 w0 k0 s → callers s !! i = Some pc → holds_read pc = true →
  is_Some (step (Caller i) s).
Proof.
  intros Hinv Hi Hpc. pose proof (readers_in_pos _ _ _ Hi Hpc) as Hpos.
  destruct pc as [| |v|v]; try done.
  - rewrite (step_caller i s at_Read (at_RUnlock (publicKey (cache s))) (cache s)
               Hi eq_refl). by eexists.
  - pose proof (inv_mu _ _ _ _ _ _ _ Hinv) as Hmu.
    destruct (readers_in (callers s)) as [|n]; [lia|].
    erewrite (step_caller i s (at_RUnlock v) (got v)); [by eexists|done|].
    cbn. by rewrite Hmu.
Qed.

(** The refresher between [Lock] and [Unlock] can always take its next
    step. *)
Lemma writer_steps r0 w0 k0 s :
  invariant r0 w0 k0 s → holds_write (refresher s) = true →
  is_Some (step Refresher s).
Proof.
  intros Hinv Hw. destruct s as [r w l cs]. cbn in Hw.
  pose proof (inv_mu _ _ _ _ _ _ _ Hinv) as Hmu. cbn in Hmu.
  destruct l as [|[]]; try done; cbn; try (by eexists).
  rewrite Hmu. cbn. by eexists.
Qed.

(** X10.  Locks are given back: [Unlock] and [RUnlock] always find the lock
    they release, so neither is ever fatal, and once the refresher is
    outside its critical section and no call of [Get] is inside its
    own, the mutex is the free one. *)
Theorem locks_balanced r0 w0 k0 sched s :
  mu r0 = RWMutex.zero → publicKey r0 = Some k0 →
  run sched (boot r0 w0) = Some s →
  (refresher s = refreshing at_Unlock → is_Some (step Refresher s)) ∧
  (∀ i v, callers s !! i = Some (at_RUnlock v) → is_Some (step (Caller i) s)) ∧
  (holds_write (refresher s) = false →
   Forall (λ pc, holds_read pc = false) (callers s) →
   mu (cache s) = RWMutex.zero) ∧
  (refresher s = waiting → More.all_returned (callers s) →
   mu (cache s) = RWMutex.zero).
Proof.
  intros Hmu Hk Hrun. pose proof (reached _ _ _ _ _ Hmu Hk Hrun) as Hinv.
  split; [|split; [|split]].
  - intros Hl. eapply writer_steps; [done|]. by rewrite Hl.
  - intros i v Hi. by eapply reader_steps.
  - intros Hw Hcs. rewrite (inv_mu _ _ _ _ _ _ _ Hinv), Hw.
    by rewrite readers_in_none.
  - intros Hl Hcs. rewrite (inv_mu _ _ _ _ _ _ _ Hinv), Hl.
    rewrite readers_in_none; [done|].
    eapply Forall_impl; [exact Hcs|]. by intros pc [v ->].
Qed.

(** *** What the program is sure to be able to do next *)

Local Abbreviation sure_step :=
  (More.sure_step transport pem_Decode x509_ParsePKIXPublicKey).
Local Abbreviation sure_run :=
  (More.sure_run transport pem_Decode x509_ParsePKIXPublicKey).

Local Ltac threads :=
  repeat first
    [ apply Forall_nil_2
    | apply Forall_cons_2; [first [by left | right; by eexists]|] ].

(** A step the program is sure to be able to take is a step of the
    system. *)
Lemma sure_step_step a s s' : sure_step a s = Some s' → step a s = Some s'.
Proof.
  destruct a as [d| | | |i]; try done. unfold More.sure_step.
  destruct (callers s !! i) as [[]|]; try done.
  by destruct (More.writer_waits _).
Qed.

Lemma sure_run_run sched : ∀ s s', sure_run sched s = Some s' → run sched s = Some s'.
Proof.
  induction sched as [|a sched IH]; intros s s' Hrun; [done|].
  cbn -[Crypto.step More.sure_step] in *.
  destruct (sure_step a s) as [s1|] eqn:Hstep; [|done].
  rewrite (sure_step_step _ _ _ Hstep). by apply IH.
Qed.

Lemma sure_run_app sched1 : ∀ sched2 s s1,
  sure_run sched1 s = Some s1 → sure_run (sched1 ++ sched2)%list s = sure_run sched2 s1.
Proof.
  induction sched1 as [|a sched1 IH]; intros sched2 s s1 Hrun.
  - cbn in Hrun. by injection Hrun as ->.
  - cbn -[More.sure_step] in *. destruct (sure_step a s) as [s'|]; [|done]. by apply IH.
Qed.

Lemma sure_run_invariant r0 w0 k0 sched s s' :
  invariant r0 w0 k0 s → sure_run sched s = Some s' → invariant r0 w0 k0 s'.
Proof. intros Hinv Hrun. eapply run_invariant; [done|]. by apply sure_run_run. Qed.

Lemma sure_step_refresher s : sure_step Refresher s = step Refresher s.
Proof. done. Qed.

Lemma sure_step_inside i s pc :
  callers s !! i = Some pc → pc ≠ at_RLock → sure_step (Caller i) s = step (Caller i) s.
Proof. intros Hi Hpc. unfold More.sure_step. rewrite Hi. by destruct pc. Qed.

Lemma sure_step_entering i s :
  callers s !! i = Some at_RLock → More.writer_waits (refresher s) = false →
  sure_step (Caller i) s = step (Caller i) s.
Proof. intros Hi Hw. unfold More.sure_step. by rewrite Hi, Hw. Qed.

(** A call of [Get] that holds the read lock returns in at most two
    steps of its own. *)
Lemma reader_leaves r0 w0 k0 s i pc :
  invariant r0 w0 k0 s → callers s !! i = Some pc → holds_read pc = true →
  ∃ sched s' v, (length sched ≤ 2)%nat ∧ Forall More.of_thread sched ∧
                sure_run sched s = Some s' ∧
                callers s' = <[i := got v]> (callers s) ∧
                world s' = world s ∧ refresher s' = refresher s.
Proof.
  intros Hinv Hi Hpc. pose proof (inv_mu _ _ _ _ _ _ _ Hinv) as Hmu.
  pose proof (lookup_lt_Some _ _ _ Hi) as Hlt.
  pose proof (readers_in_pos _ _ _ Hi Hpc) as Hpos.
  destruct s as [[u key t e m] w l cs]. cbn in Hmu, Hi, Hlt, Hpos. subst m.
  destruct (readers_in cs) as [|n]; [lia|].
  destruct pc as [| |v|v]; try done.
  - exists [Caller i; Caller i]. eexists. exists key.
    split; [cbn; lia|].
    split; [threads|].
    cbn. rewrite Hi. cbn. rewrite list_lookup_insert_eq by done. cbn.
    rewrite list_insert_insert_eq. done.
  - exists [Caller i]. eexists. exists v.
    split; [cbn; lia|].
    split; [threads|].
    cbn. rewrite Hi. cbn. done.
Qed.

(** The calls of [Get] that hold the read lock can all return, two
    steps each at most, while nothing else moves. *)
Lemma readers_leave r0 w0 k0 n : ∀ s,
  invariant r0 w0 k0 s → readers_in (callers s) = n →
  ∃ sched s', (length sched ≤ 2 * n)%nat ∧ Forall More.of_thread sched ∧
              sure_run sched s = Some s' ∧ readers_in (callers s') = 0%nat ∧
              world s' = world s ∧ refresher s' = refresher s ∧
              length (callers s') = length (callers s).
Proof.
  induction n as [|n IH]; intros s Hinv Hn.
  { exists [], s. cbn. repeat split; done. }
  destruct (readers_in_some (callers s)) as (i & pc & Hi & Hpc); [lia|].
  destruct (reader_leaves _ _ _ _ _ _ Hinv Hi Hpc)
    as (sched1 & s1 & v & Hlen1 & Hall1 & Hrun1 & Hcs1 & Hworld1 & Hl1).
  assert (invariant r0 w0 k0 s1) as Hinv1 by (by eapply sure_run_invariant).
  assert (readers_in (callers s1) = n) as Hn1.
  { pose proof (readers_in_insert (callers s) i pc (got v) Hi) as Hins.
    rewrite Hpc in Hins. cbn in Hins. rewrite Hcs1. lia. }
  destruct (IH s1 Hinv1 Hn1)
    as (sched2 & s2 & Hlen2 & Hall2 & Hrun2 & Hz & Hworld2 & Hl2 & Hlen).
  exists (sched1 ++ sched2)%list, s2.
  split; [rewrite length_app; lia|].
  split; [by apply Forall_app|].
  split; [by rewrite (sure_run_app _ _ _ _ Hrun1)|].
  split; [done|]. split; [congruence|]. split; [congruence|].
  by rewrite Hlen, Hcs1, length_insert.
Qed.

(** The refresher that holds the write lock, or stands at [Lock] with
    no call of [Get] holding the read lock, is through [Unlock] in at
    most four steps of its own, which touch neither the world nor the
    calls of [Get]. *)
Lemma writer_leaves r0 w0 k0 s :
  invariant r0 w0 k0 s →
  holds_write (refresher s) = true ∨
  More.writer_waits (refresher s) = true ∧ readers_in (callers s) = 0%nat →
  ∃ sched s', (length sched ≤ 4)%nat ∧ Forall More.of_thread sched ∧
              sure_run sched s = Some s' ∧
              refresher s' = refreshing (returned None) ∧
              callers s' = callers s ∧ world s' = world s.
Proof.
  intros Hinv Hw. pose proof (inv_mu _ _ _ _ _ _ _ Hinv) as Hmu.
  destruct s as [[u key t e m] w l cs]. cbn in Hw, Hmu. subst m.
  destruct Hw as [Hw|[Hw Hz]].
  - destruct l as [|[]]; try done.
    + exists [Refresher; Refresher; Refresher]. eexists.
      split; [cbn; lia|]. split; [threads|].
      split; [cbn; reflexivity|]. done.
    + exists [Refresher; Refresher]. eexists.
      split; [cbn; lia|]. split; [threads|].
      split; [cbn; reflexivity|]. done.
    + exists [Refresher]. eexists.
      split; [cbn; lia|]. split; [threads|].
      split; [cbn; reflexivity|]. done.
  - destruct l as [|[]]; try done. rewrite Hz.
    exists [Refresher; Refresher; Refresher; Refresher]. eexists.
    split; [cbn; lia|]. split; [threads|].
    split; [cbn; reflexivity|]. done.
Qed.

(** With no writer holding the mutex or standing at [Lock], a call of
    [Get] returns in at most three steps of its own. *)
Lemma caller_returns r0 w0 k0 s i pc :
  invariant r0 w0 k0 s → holds_write (refresher s) = false →
  More.writer_waits (refresher s) = false → callers s !! i = Some pc →
  ∃ sched s' v, (length sched ≤ 3)%nat ∧ Forall More.of_thread sched ∧
                sure_run sched s = Some s' ∧ callers s' !! i = Some (got v) ∧
                world s' = world s ∧ refresher s' = refresher s.
Proof.
  intros Hinv Hw Hww Hi.
  pose proof (lookup_lt_Some _ _ _ Hi) as Hlt.
  destruct (holds_read pc) eqn:Hpc.
  { destruct (reader_leaves _ _ _ _ _ _ Hinv Hi Hpc)
      as (sched1 & s1 & v & Hlen1 & Hall1 & Hrun1 & Hcs1 & Hworld1 & Hl1).
    exists sched1, s1, v. split; [lia|]. split; [done|]. split; [done|].
    split; [|done]. rewrite Hcs1. by apply list_lookup_insert_eq. }
  destruct pc as [| |v|v]; try done.
  - pose proof (inv_mu _ _ _ _ _ _ _ Hinv) as Hmu.
    destruct s as [[u key t e m] w l cs]. cbn in Hw, Hww, Hmu, Hi, Hlt.
    rewrite Hw in Hmu. subst m.
    exists [Caller i; Caller i; Caller i]. eexists. exists key.
    split; [cbn; lia|].
    split; [threads|].
    cbn. rewrite Hi, Hww. cbn. rewrite list_lookup_insert_eq by done. cbn.
    rewrite list_lookup_insert_eq by (by rewrite length_insert). cbn.
    split; [done|]. cbn.
    rewrite list_lookup_insert_eq by (by rewrite !length_insert). done.
  - exists [], s, v. cbn. repeat split; try done. lia.
Qed.


(** X11.  [Get] never waits for the network, also with the precedence
    [sync.RWMutex] gives to a waiting writer.  From every state the
    system reaches, a call of [Get] in flight can be brought to its
    return by steps the program is sure to be able to take: at most two
    for each call of [Get] that holds the read lock, and seven more.
    They are steps of calls of [Get] and of the refresher, and the
    refresher moves only if it holds the write lock or stands at
    [Lock], and then up to its return from [Unlock]: the statements of
    [refresh] that wait for the network are not among them.  No step
    calls [http.Get] or moves the clock, and the key returned is not
    nil. *)
Theorem Get_never_waits_for_network r0 w0 k0 sched s i pc :
  mu r0 = RWMutex.zero → publicKey r0 = Some k0 →
  run sched (boot r0 w0) = Some s → callers s !! i = Some pc →
  ∃ sched' s' v,
    (length sched' ≤ 2 * readers_in (callers s) + 7)%nat ∧
    Forall More.of_thread sched' ∧
    sure_run sched' s = Some s' ∧ callers s' !! i = Some (got v) ∧
    world s' = world s ∧ is_Some v ∧
    (refresher s' = refresher s ∨
     (holds_write (refresher s) = true ∨ More.writer_waits (refresher s) = true) ∧
     refresher s' = refreshing (returned None)).
Proof.
  intros Hmu Hk Hrun Hi. pose proof (reached _ _ _ _ _ Hmu Hk Hrun) as Hinv.
  assert (∃ sched1 s1, (length sched1 ≤ 2 * readers_in (callers s) + 4)%nat ∧
            Forall More.of_thread sched1 ∧ sure_run sched1 s = Some s1 ∧
            holds_write (refresher s1) = false ∧
            More.writer_waits (refresher s1) = false ∧
            length (callers s1) = length (callers s) ∧ world s1 = world s ∧
            (refresher s1 = refresher s ∨
             (holds_write (refresher s) = true ∨
              More.writer_waits (refresher s) = true) ∧
             refresher s1 = refreshing (returned None)))
    as (sched1 & s1 & Hlen1 & Hall1 & Hrun1 & Hw1 & Hww1 & Hcs1 & Hworld1 & Hmoved).
  { destruct (holds_write (refresher s)) eqn:Hw.
    { destruct (writer_leaves _ _ _ _ Hinv (or_introl Hw))
        as (sched1 & s1 & Hlen1 & Hall1 & Hrun1 & Hl1 & Hcs1 & Hworld1).
      exists sched1, s1. rewrite Hl1, Hcs1. repeat split; try done; [lia|auto]. }
    destruct (More.writer_waits (refresher s)) eqn:Hww.
    2:{ exists [], s. cbn. repeat split; try done; [lia|auto]. }
    destruct (readers_leave r0 w0 k0 _ s Hinv eq_refl)
      as (sched1 & s1 & Hlen1 & Hall1 & Hrun1 & Hz & Hworld1 & Hl1 & Hcs1).
    assert (invariant r0 w0 k0 s1) as Hinv1 by (by eapply sure_run_invariant).
    rewrite <- Hl1 in Hww.
    destruct (writer_leaves _ _ _ _ Hinv1 (or_intror (conj Hww Hz)))
      as (sched2 & s2 & Hlen2 & Hall2 & Hrun2 & Hl2 & Hcs2 & Hworld2).
    exists (sched1 ++ sched2)%list, s2.
    split; [rewrite length_app; lia|].
    split; [by apply Forall_app|].
    split; [by rewrite (sure_run_app _ _ _ _ Hrun1)|].
    rewrite Hl2, Hcs2. repeat split; try done; [congruence|].
    right. split; [by right|done]. }
  assert (invariant r0 w0 k0 s1) as Hinv1 by (by eapply sure_run_invariant).
  destruct (lookup_lt_is_Some_2 (callers s1) i) as [pc1 Hi1].
  { rewrite Hcs1. by eapply lookup_lt_Some. }
  destruct (caller_returns _ _ _ _ _ _ Hinv1 Hw1 Hww1 Hi1)
    as (sched2 & s2 & v & Hlen2 & Hall2 & Hrun2 & Hgot & Hworld2 & Hl2).
  exists (sched1 ++ sched2)%list, s2, v.
  split; [rewrite length_app; lia|].
  split; [by apply Forall_app|].
  split; [by rewrite (sure_run_app _ _ _ _ Hrun1)|].
  split; [done|]. split; [congruence|].
  assert (invariant r0 w0 k0 s2) as Hinv2 by (by eapply sure_run_invariant).
  destruct (inv_read _ _ _ _ _ _ _ Hinv2 i (got v) v Hgot eq_refl) as (n & _ & ->).
  split; [by eexists|]. by rewrite Hl2.
Qed.

End LockFacts.

Section AloneFacts.

Import Crypto.

Variable transport : nat -> string -> error + Response.
Variable pem_Decode : bytes -> option (pem_Block * bytes).
Variable x509_ParsePKIXPublicKey : bytes -> error + PKIXPublicKey.

Local Abbreviation refresh := (refresh transport pem_Decode x509_ParsePKIXPublicKey).
Local Abbreviation refresh_step :=
  (refresh_step transport pem_Decode x509_ParsePKIXPublicKey).
Local Abbreviation refresh_steps :=
  (refresh_steps transport pem_Decode x509_ParsePKIXPublicKey).
Local Abbreviation fetch := (Spec.fetch pem_Decode x509_ParsePKIXPublicKey).
Local Abbreviation answer := (Spec.answer transport).

Lemma refresh_steps_stuck pc r w pc' :
  refresh_step pc r w = Some (pc', r, w) →
  (∀ fuel, refresh_steps fuel pc' r w = None) →
  ∀ fuel, refresh_steps fuel pc r w = None.
Proof.
  intros Hstep Hnone [|fuel].
  - by destruct pc.
  - erewrite refresh_steps_next by exact Hstep. apply Hnone.
Qed.

Lemma refresh_steps_blocked k r w :
  RWMutex.Lock (mu r) = None → ∀ fuel, refresh_steps fuel (at_Lock k) r w = None.
Proof.
  intros Hlock [|fuel]; [done|]. cbn [Crypto.refresh_steps Crypto.refresh_step].
  by rewrite Hlock.
Qed.


End AloneFacts.

(** ** The further properties on concrete environments *)

Section MoreInstances.

Import Crypto Threads Demo.

Local Abbreviation refresh :=
  (Crypto.refresh transport pem_Decode x509_ParsePKIXPublicKey).
Local Abbreviation autoRefresh :=
  (Crypto.autoRefresh transport pem_Decode x509_ParsePKIXPublicKey).
Local Abbreviation autoRefresh_loop :=
  (Crypto.autoRefresh_loop transport pem_Decode x509_ParsePKIXPublicKey).
Local Abbreviation NewRemotePublicKey :=
  (Crypto.NewRemotePublicKey transport pem_Decode x509_ParsePKIXPublicKey).
Local Abbreviation VerifyToken :=
  (Middleware.VerifyToken transport pem_Decode x509_ParsePKIXPublicKey).
Local Abbreviation step := (Crypto.step transport pem_Decode x509_ParsePKIXPublicKey).
Local Abbreviation run := (Crypto.run transport pem_Decode x509_ParsePKIXPublicKey).
Local Abbreviation outcomes :=
  (Spec.outcomes transport pem_Decode x509_ParsePKIXPublicKey).

(** A process that has the variable nowhere. *)
Lemma VerifyToken_requires_url_witness :
  More.configured "PUBLIC_KEY_URL" Cases.bare_world = "" ∧
  (VerifyToken Cases.bare_world).1
  = Panicked "[go-middle] PUBLIC_KEY_URL is required in .env" ∧
  requests (VerifyToken Cases.bare_world).2 = [].
Proof.
  destruct (VerifyToken_requires_url transport pem_Decode x509_ParsePKIXPublicKey
              Cases.bare_world eq_refl) as (Hpanic & Hreq & _).
  split; [reflexivity|]. split; [exact Hpanic|exact Hreq].
Defined.


(** An interval of zero: the constructor succeeds, the loop does not
    start. *)
Lemma interval_unchecked_witness :
  NewRemotePublicKey key_url 0 world0
  = (Some (mkRemote key_url (Some key1) 1000 0 RWMutex.zero), None, world1) ∧
  autoRefresh [300] (mkRemote key_url (Some key1) 1000 0 RWMutex.zero) world1 = None.
Proof.
  assert (NewRemotePublicKey key_url 0 world0
          = (Some (mkRemote key_url (Some key1) 1000 0 RWMutex.zero), None, world1))
    as Hnew by (vm_compute; reflexivity).
  destruct (interval_unchecked transport pem_Decode x509_ParsePKIXPublicKey
              key_url 0 world0 _ world1 Hnew) as (_ & Hpanic).
  split; [exact Hnew|]. apply Hpanic. lia.
Defined.

(** A 500 answer with the body of a 200 one, read by a PEM decoder
    that reports another block type, headers and bytes left over. *)
Lemma refresh_reads_der_only_witness :
  More.der_of pem_Decode (Cases.ok_server (length (requests world1)) (url cache1))
  = More.der_of Cases.pem_Decode
                (Cases.failing_server (length (requests world1)) (url cache1)) ∧
  Crypto.refresh Cases.ok_server pem_Decode x509_ParsePKIXPublicKey cache1 world1
  = Crypto.refresh Cases.failing_server Cases.pem_Decode x509_ParsePKIXPublicKey
                   cache1 world1.
Proof.
  split; [reflexivity|].
  apply (refresh_reads_der_only x509_ParsePKIXPublicKey Cases.ok_server
           Cases.failing_server pem_Decode Cases.pem_Decode cache1 world1).
  reflexivity.
Defined.

(** The refused connection of the first tick changes no verdict. *)
Lemma refreshes_keep_verdicts_witness :
  publicKey cache1 = Some key1 ∧
  Forall (λ o, Spec.key_of o = None ∨ Spec.key_of o = Some key1)
         (outcomes (url cache1) world1 1) ∧
  handler (autoRefresh_loop [300] cache1 world1).1 1500 id (request "Bearer signed1")
  = handler cache1 1500 id (request "Bearer signed1").
Proof.
  assert (Forall (λ o, Spec.key_of o = None ∨ Spec.key_of o = Some key1)
                 (outcomes (url cache1) world1 1)) as Hos.
  { vm_compute. constructor; [left; reflexivity|constructor]. }
  split; [reflexivity|]. split; [exact Hos|].
  exact (refreshes_keep_verdicts transport pem_Decode x509_ParsePKIXPublicKey
           jwt_Parse [300] cache1 world1 key1 1500 id (request "Bearer signed1")
           eq_refl Hos).
Defined.

(** After the race of [race_schedule] the mutex is free. *)
Lemma locks_balanced_witness :
  mu cache1 = RWMutex.zero ∧ publicKey cache1 = Some key1 ∧
  run race_schedule (boot cache1 world1) = Some raced ∧
  mu (cache raced) = RWMutex.zero.
Proof.
  destruct (locks_balanced transport pem_Decode x509_ParsePKIXPublicKey
              cache1 world1 key1 race_schedule raced eq_refl eq_refl raced_run)
    as (_ & _ & _ & Hfree).
  split; [reflexivity|]. split; [reflexivity|]. split; [exact raced_run|].
  apply Hfree; [reflexivity|].
  repeat constructor; by eexists.
Defined.

Local Abbreviation sure_step :=
  (More.sure_step transport pem_Decode x509_ParsePKIXPublicKey).
Local Abbreviation sure_run :=
  (More.sure_run transport pem_Decode x509_ParsePKIXPublicKey).

Lemma queued_run :
  run Cases.queued_schedule (boot cache1 world1) = Some Cases.queued.
Proof. vm_compute. reflexivity. Defined.

(** The second call of [Get] stands at [RLock] behind the refresher,
    which stands at [Lock] behind the first call. *)
Lemma Get_never_waits_for_network_witness :
  mu cache1 = RWMutex.zero ∧ publicKey cache1 = Some key1 ∧
  run Cases.queued_schedule (boot cache1 world1) = Some Cases.queued ∧
  callers Cases.queued !! 1%nat = Some at_RLock ∧
  sure_step (Caller 1) Cases.queued = None ∧
  ∃ sched' s' v,
    (length sched' ≤ 2 * readers_in (callers Cases.queued) + 7)%nat ∧
    Forall More.of_thread sched' ∧
    sure_run sched' Cases.queued = Some s' ∧ callers s' !! 1%nat = Some (got v) ∧
    world s' = world Cases.queued ∧ is_Some v ∧
    (refresher s' = refresher Cases.queued ∨
     (holds_write (refresher Cases.queued) = true ∨
      More.writer_waits (refresher Cases.queued) = true) ∧
     refresher s' = refreshing (returned None)).
Proof.
  split; [reflexivity|]. split; [reflexivity|]. split; [exact queued_run|].
  split; [reflexivity|]. split; [reflexivity|].
  exact (Get_never_waits_for_network transport pem_Decode x509_ParsePKIXPublicKey
           cache1 world1 key1 Cases.queued_schedule Cases.queued 1%nat at_RLock
           eq_refl eq_refl queued_run eq_refl).
Defined.


End MoreInstances.
